(** * A shallow embedding of the automation core of [flashes]

    Sources: [src/src/services/AutomationService.js] (the cycle, news
    selection, post creation and the publish retry loop),
    [src/unnamed/part_006] ([SocialMediaService]: rate limiting and the
    platform calls) and [src/unnamed/part_000] ([Database]: the SQLite
    tables [posts] and [processed_news]).

    The JavaScript is asynchronous.  Every [await] is a suspension point,
    but all state touched here is owned by one [AutomationService]
    instance on one event loop, so a single cycle is modelled as a
    sequential computation in a state and exception monad [M] over a
    [World] (statistics, database rows, rate-limit clocks, the clock and
    a log of collaborator calls).  The collaborators that are not part of
    this core (news API, LLM, image rendering, the HTTP calls of the
    platform clients, database I/O failures) are the fields of an
    environment [Env].  Thrown JavaScript values are [Error] objects; they
    are modelled by their [message]. *)

From Stdlib Require Import String ZArith List Bool Lia.
Import ListNotations.
Open Scope Z_scope.

(* ------------------------------------------------------------------ *)
(** ** Results and data *)

Inductive Result (A : Type) : Type :=
| Ok (a : A)
| Throw (msg : string).
Arguments Ok {A} a.
Arguments Throw {A} msg.

Record NewsItem := mkNewsItem { url : string; title : string }.

Record Content := mkContent {
  shortCaption : string;
  longDescription : string;
  hashtags : list string
}.

Inductive Platform := Facebook | Instagram.

Definition platform_name (p : Platform) : string :=
  match p with Facebook => "facebook" | Instagram => "instagram" end.

(** The objects returned by [postToFacebook], [postToInstagram] and
    [mockPost], and built by the catch branch of [publishWithRetry]. *)
Record Outcome := mkOutcome {
  o_platform : Platform;
  o_success : bool;
  o_error : option string
}.

Definition succeeded (p : Platform) : Outcome := mkOutcome p true None.
Definition failed (p : Platform) (m : string) : Outcome := mkOutcome p false (Some m).

(** [posts.status]: the column default ['pending'] and the three values
    written by [updatePostStatus] in [createAndPublishPost]. *)
Inductive PostStatus := Pending | Published | PartialFailure | Failed.

Record PostRow := mkPostRow {
  pr_id : nat;
  pr_title : string;
  pr_content : string;
  pr_newsUrl : string;
  pr_platform : string;
  pr_postedAt : Z;
  pr_status : PostStatus;
  pr_error : option string;
  pr_contentHash : string
}.

Record NewsRow := mkNewsRow { nr_url : string; nr_title : string }.

(** [this.stats], [this.isRunning] and [this.lastRunTime]. *)
Record Stats := mkStats {
  totalRuns : nat;
  successfulPosts : nat;
  failedPosts : nat;
  duplicatesSkipped : nat;
  isRunning : bool;
  lastRunTime : option Z
}.

Record Db := mkDb {
  posts : list PostRow;
  nextPostId : nat;          (* AUTOINCREMENT counter of [posts.id] *)
  processed : list NewsRow
}.

(** [SocialMediaService.lastPostTime]. *)
Record Social := mkSocial { lastFacebook : Z; lastInstagram : Z }.

Inductive Call := CallNews | CallPlatform (p : Platform).

Record World := mkWorld {
  stats : Stats;
  db : Db;
  social : Social;
  now : Z;                   (* Date.now(), in milliseconds *)
  calls : list Call
}.

Inductive DbOp := DbRecent | DbIsProcessed | DbIsDup | DbInsert | DbUpdate | DbMark.

(** The collaborators outside the core.  [env_news a] is the result of
    [newsService.getRandomNews()] at selection attempt [a];
    [env_api p a] is the latency and the result of the HTTP calls of
    platform [p] in publish attempt [a]; [env_dbFail op] is an I/O error
    of the SQLite driver for the operation [op], if any. *)
Record Env := mkEnv {
  env_maxPostsPerDay : nat;
  env_news : nat -> Result NewsItem;
  env_content : NewsItem -> Result Content;
  env_hash : string -> string;
  env_imageText : NewsItem -> Result unit;
  env_image : NewsItem -> Result string;
  env_mock : bool;
  env_api : Platform -> nat -> Z * Result string;
  env_dbFail : DbOp -> option string
}.

(* ------------------------------------------------------------------ *)
(** ** Field updates *)

Definition set_stats (f : Stats -> Stats) (w : World) : World :=
  mkWorld (f (stats w)) (db w) (social w) (now w) (calls w).
Definition set_db (f : Db -> Db) (w : World) : World :=
  mkWorld (stats w) (f (db w)) (social w) (now w) (calls w).
Definition set_social (f : Social -> Social) (w : World) : World :=
  mkWorld (stats w) (db w) (f (social w)) (now w) (calls w).
Definition set_now (t : Z) (w : World) : World :=
  mkWorld (stats w) (db w) (social w) t (calls w).
Definition set_calls (l : list Call) (w : World) : World :=
  mkWorld (stats w) (db w) (social w) (now w) l.

Definition incr_totalRuns (s : Stats) : Stats :=
  mkStats (S (totalRuns s)) (successfulPosts s) (failedPosts s)
          (duplicatesSkipped s) (isRunning s) (lastRunTime s).
Definition incr_successfulPosts (s : Stats) : Stats :=
  mkStats (totalRuns s) (S (successfulPosts s)) (failedPosts s)
          (duplicatesSkipped s) (isRunning s) (lastRunTime s).
Definition incr_failedPosts (s : Stats) : Stats :=
  mkStats (totalRuns s) (successfulPosts s) (S (failedPosts s))
          (duplicatesSkipped s) (isRunning s) (lastRunTime s).
Definition incr_duplicatesSkipped (s : Stats) : Stats :=
  mkStats (totalRuns s) (successfulPosts s) (failedPosts s)
          (S (duplicatesSkipped s)) (isRunning s) (lastRunTime s).
Definition set_isRunning (b : bool) (s : Stats) : Stats :=
  mkStats (totalRuns s) (successfulPosts s) (failedPosts s)
          (duplicatesSkipped s) b (lastRunTime s).
Definition set_lastRunTime (t : Z) (s : Stats) : Stats :=
  mkStats (totalRuns s) (successfulPosts s) (failedPosts s)
          (duplicatesSkipped s) (isRunning s) (Some t).

(* ------------------------------------------------------------------ *)
(** ** The state and exception monad *)

Definition M (A : Type) : Type := World -> Result A * World.

Definition ret {A} (a : A) : M A := fun w => (Ok a, w).
Definition throw {A} (m : string) : M A := fun w => (Throw m, w).
Definition bind {A B} (c : M A) (k : A -> M B) : M B :=
  fun w => match c w with
           | (Ok a, w') => k a w'
           | (Throw m, w') => (Throw m, w')
           end.
Definition get : M World := fun w => (Ok w, w).
Definition modify (f : World -> World) : M unit := fun w => (Ok tt, f w).
Definition liftR {A} (r : Result A) : M A := fun w => (r, w).

(** [try { c } catch (error) { h(error.message) }] *)
Definition try_ {A} (c : M A) (h : string -> M A) : M A :=
  fun w => match c w with
           | (Ok a, w') => (Ok a, w')
           | (Throw m, w') => h m w'
           end.

(** [try { c } finally { f }]: [f] runs on both paths; an exception of
    [f] replaces the outcome of [c]. *)
Definition finally_ {A} (c : M A) (f : M unit) : M A :=
  fun w => match c w with
           | (r, w') => match f w' with
                        | (Ok _, w'') => (r, w'')
                        | (Throw m, w'') => (Throw m, w'')
                        end
           end.

Declare Scope m_scope.
Notation "x <- c1 ;; c2" := (bind c1 (fun x => c2))
  (at level 100, c1 at next level, right associativity) : m_scope.
Notation "c1 ;; c2" := (bind c1 (fun _ : unit => c2))
  (at level 100, right associativity) : m_scope.
Open Scope m_scope.

Definition delay (ms : Z) : M unit := modify (fun w => set_now (now w + ms) w).
Definition logCall (c : Call) : M unit := modify (fun w => set_calls (calls w ++ [c]) w).

(* ------------------------------------------------------------------ *)
(** ** [publishWithRetry] (AutomationService.js, lines 225-270)

    The loop is written over [round attempt], the call made in each
    attempt ([socialMediaService.mockPost] or [postToAllPlatforms]).  In
    the source the whole body of an iteration sits inside [try]; only the
    call can throw ([filter], [console.log] and [delay] cannot), so the
    [try_] below surrounds the call alone, and the loop variable
    [results] keeps its previous value when the call throws. *)

Definition maxRetries : nat := 3.
Definition retryDelay : Z := 60000.

Section RetryLoop.
Variable round : nat -> M (list Outcome).

Fixpoint retryLoop (fuel attempt : nat) (results : list Outcome) : M (list Outcome) :=
  match fuel with
  | O => ret results
  | S fuel' =>
      r <- try_ (res <- round attempt ;; ret (inl res)) (fun m => ret (inr m)) ;;
      match r with
      | inl res =>
          let failures := filter (fun o => negb (o_success o)) res in
          if Nat.eqb (length failures) 0 then ret res
          else if Nat.ltb attempt (maxRetries - 1) then
            delay retryDelay ;; retryLoop fuel' (S attempt) res
          else ret res
      | inr m =>
          if Nat.ltb attempt (maxRetries - 1) then
            delay retryDelay ;; retryLoop fuel' (S attempt) results
          else ret [failed Facebook m; failed Instagram m]
      end
  end.

(** [while (attempt < this.maxRetries)] starting from [attempt = 0] and
    [results = []]. *)
Definition publishWithRetry : M (list Outcome) := retryLoop maxRetries 0 [].

End RetryLoop.

(** [INSERT OR IGNORE INTO processed_news (news_url, title)] on the table
    whose [news_url] is UNIQUE: a row with the same URL makes the insert
    a no-op. *)
Definition insert_or_ignore (tbl : list NewsRow) (newsUrl t : string) : list NewsRow :=
  if existsb (fun r => String.eqb (nr_url r) newsUrl) tbl
  then tbl
  else tbl ++ [mkNewsRow newsUrl t].

Section Service.
Variable e : Env.

(* ------------------------------------------------------------------ *)
(** ** [Database] (part_000) *)

(** A rejected [db.run]/[db.get]/[db.all] callback: the promise rejects. *)
Definition dbOp {A} (op : DbOp) (k : M A) : M A :=
  fun w => match env_dbFail e op with
           | Some m => (Throw m, w)
           | None => k w
           end.

(** [getRecentPosts(hours)]: rows with [posted_at > now - hours]. *)
Definition getRecentPosts (hours : Z) : M (list PostRow) :=
  dbOp DbRecent (fun w =>
    (Ok (filter (fun r => now w - hours * 3600000 <? pr_postedAt r)
                (posts (db w))), w)).

Definition isNewsProcessed (newsUrl : string) : M bool :=
  dbOp DbIsProcessed (fun w =>
    (Ok (existsb (fun r => String.eqb (nr_url r) newsUrl) (processed (db w))), w)).

Definition isContentDuplicate (contentHash : string) : M bool :=
  dbOp DbIsDup (fun w =>
    (Ok (existsb (fun r => String.eqb (pr_contentHash r) contentHash) (posts (db w))), w)).

(** [INSERT INTO posts ...]: the UNIQUE index on [content_hash] rejects a
    second row with the same hash; otherwise the row gets the next
    AUTOINCREMENT id, status ['pending'] and [posted_at = now]. *)
Definition insertPost (t c newsUrl platform contentHash : string) : M nat :=
  dbOp DbInsert (fun w =>
    if existsb (fun r => String.eqb (pr_contentHash r) contentHash) (posts (db w))
    then (Throw "SQLITE_CONSTRAINT: UNIQUE constraint failed: posts.content_hash", w)
    else let id := nextPostId (db w) in
         (Ok id,
          set_db (fun d => mkDb
                    (posts d ++ [mkPostRow id t c newsUrl platform (now w)
                                           Pending None contentHash])
                    (S id) (processed d)) w)).

Definition updatePostStatus (id : nat) (status : PostStatus)
  (errorMessage : option string) : M unit :=
  dbOp DbUpdate (modify (set_db (fun d =>
    mkDb (map (fun r => if Nat.eqb (pr_id r) id
                        then mkPostRow (pr_id r) (pr_title r) (pr_content r)
                               (pr_newsUrl r) (pr_platform r) (pr_postedAt r)
                               status errorMessage (pr_contentHash r)
                        else r) (posts d))
         (nextPostId d) (processed d)))).

Definition markNewsAsProcessed (newsUrl t : string) : M unit :=
  dbOp DbMark (modify (set_db (fun d =>
    mkDb (posts d) (nextPostId d) (insert_or_ignore (processed d) newsUrl t)))).

(* ------------------------------------------------------------------ *)
(** ** [SocialMediaService] (part_006) *)

Definition minInterval : Z := 60 * 60 * 1000.

Definition lastPostTime (s : Social) (p : Platform) : Z :=
  match p with Facebook => lastFacebook s | Instagram => lastInstagram s end.

(** [this.lastPostTime[platform] = Date.now()] *)
Definition recordPublish (s : Social) (p : Platform) (t : Z) : Social :=
  match p with
  | Facebook => mkSocial t (lastInstagram s)
  | Instagram => mkSocial (lastFacebook s) t
  end.

(** [canPost(platform)]: [lastPost = this.lastPostTime[platform] || 0];
    [0] is the only falsy number stored there. *)
Definition canPost (s : Social) (p : Platform) (nowMs : Z) : bool :=
  let v := lastPostTime s p in
  let lastPost := if Z.eqb v 0 then 0 else v in
  let timeSinceLastPost := nowMs - lastPost in
  Z.leb minInterval timeSinceLastPost.

(** The part shared by [postToFacebook] and [postToInstagram]: the rate
    limit check throws inside the [try], the HTTP calls (image upload,
    media container, feed post or publish, and for Instagram the account
    and image checks) are [env_api]; on success [lastPostTime] is set to
    [Date.now()]; the [catch] turns every error into a failed outcome. *)
Definition postToPlatform (p : Platform) (rateMsg : string) (attempt : nat) : M Outcome :=
  logCall (CallPlatform p) ;;
  w <- get ;;
  if negb (canPost (social w) p (now w)) then ret (failed p rateMsg)
  else
    let '(latency, r) := env_api e p attempt in
    delay latency ;;
    match r with
    | Throw m => ret (failed p m)
    | Ok _ =>
        modify (fun w => set_social (fun s => recordPublish s p (now w)) w) ;;
        ret (succeeded p)
    end.

Definition postToFacebook (attempt : nat) : M Outcome :=
  postToPlatform Facebook "Rate limit: Too soon since last Facebook post" attempt.

Definition postToInstagram (attempt : nat) : M Outcome :=
  postToPlatform Instagram "Rate limit: Too soon since last Instagram post" attempt.

Definition postToAllPlatforms (attempt : nat) : M (list Outcome) :=
  facebookResult <- postToFacebook attempt ;;
  delay 5000 ;;
  instagramResult <- postToInstagram attempt ;;
  ret [facebookResult; instagramResult].

Definition mockPost : M (list Outcome) := ret [succeeded Facebook; succeeded Instagram].

(** The call of one attempt of [publishWithRetry]: [mockPost] when
    [NODE_ENV === 'development' || !FACEBOOK_ACCESS_TOKEN]. *)
Definition publishRound (attempt : nat) : M (list Outcome) :=
  if env_mock e then mockPost else postToAllPlatforms attempt.

(* ------------------------------------------------------------------ *)
(** ** [getUniqueNewsItem] (lines 121-146) *)

Definition maxAttempts : nat := 10.

Definition getRandomNews (attempt : nat) : M NewsItem :=
  logCall CallNews ;; liftR (env_news e attempt).

(** The [try] block of one iteration of [while (attempts < maxAttempts)]:
    [Some newsItem] is [return newsItem]; [None] continues the loop
    ([attempts++] on both the already-processed and the [catch] path). *)
Definition selectAttempt (attempts : nat) : M (option NewsItem) :=
  try_ (newsItem <- getRandomNews attempts ;;
        alreadyProcessed <- isNewsProcessed (url newsItem) ;;
        ret (if alreadyProcessed then None else Some newsItem))
       (fun _ => ret None).

Fixpoint uniqueLoop (fuel attempts : nat) : M (option NewsItem) :=
  match fuel with
  | O => ret None
  | S fuel' =>
      r <- selectAttempt attempts ;;
      match r with
      | Some newsItem => ret (Some newsItem)
      | None => uniqueLoop fuel' (S attempts)
      end
  end.

Definition getUniqueNewsItem : M (option NewsItem) := uniqueLoop maxAttempts 0.

Definition getTodayPostCount : M nat :=
  ps <- getRecentPosts 24 ;; ret (length ps).

(* ------------------------------------------------------------------ *)
(** ** [createAndPublishPost] (lines 148-223)

    The local [postId] is [null] until [insertPost] resolves, so the
    single [try] of the source is split at that point: [phase1] runs
    with [postId = null], [phase2] with the inserted id. *)

Record PublishResult := mkPublishResult {
  res_success : bool;
  res_status : option PostStatus
}.

Definition failRes : PublishResult := mkPublishResult false None.

Inductive Phase :=
| PDone (r : PublishResult)
| PInserted (postId : nat) (content : Content) (imagePath : string).

Fixpoint join (sep : string) (l : list string) : string :=
  match l with
  | [] => ""
  | [x] => x
  | x :: l' => String.append x (String.append sep (join sep l'))
  end.

Definition error_text (o : Outcome) : string :=
  match o_error o with Some m => m | None => "undefined" end.

Definition phase1 (newsItem : NewsItem) : M Phase :=
  content <- liftR (env_content e newsItem) ;;
  let contentHash := env_hash e (String.append (shortCaption content) (longDescription content)) in
  isDuplicate <- isContentDuplicate contentHash ;;
  if isDuplicate then
    modify (set_stats incr_duplicatesSkipped) ;;
    ret (PDone failRes)
  else
    imageTextData <- liftR (env_imageText e newsItem) ;;
    imagePath <- liftR (env_image e newsItem) ;;
    postId <- insertPost (title newsItem) (longDescription content) (url newsItem)
                         "both" contentHash ;;
    ret (PInserted postId content imagePath).

Definition phase2 (newsItem : NewsItem) (postId : nat) : M PublishResult :=
  publishResults <- publishWithRetry publishRound ;;
  let allSuccessful := forallb o_success publishResults in
  let status := if allSuccessful then Published else PartialFailure in
  let errorMessages :=
    join "; " (map (fun o => String.append (platform_name (o_platform o))
                               (String.append ": " (error_text o)))
                   (filter (fun o => negb (o_success o)) publishResults)) in
  updatePostStatus postId status
    (if String.eqb errorMessages "" then None else Some errorMessages) ;;
  markNewsAsProcessed (url newsItem) (title newsItem) ;;
  ret (mkPublishResult allSuccessful (Some status)).

Definition createAndPublishPost (newsItem : NewsItem) : M PublishResult :=
  ph <- try_ (phase1 newsItem) (fun _ => ret (PDone failRes)) ;;
  match ph with
  | PDone r => ret r
  | PInserted postId _ _ =>
      try_ (phase2 newsItem postId)
           (fun m => (if Nat.eqb postId 0 then ret tt
                      else updatePostStatus postId Failed (Some m)) ;;
                     ret failRes)
  end.

(* ------------------------------------------------------------------ *)
(** ** [runAutomationCycle] (lines 75-119) *)

(** The synchronous prefix: [isRunning = true], [lastRunTime],
    [totalRuns++]. *)
Definition cycle_start (w : World) : World :=
  set_stats (fun s => incr_totalRuns (set_lastRunTime (now w) (set_isRunning true s))) w.

(** The body of the [try]. *)
Definition cycle_body : M unit :=
  todaysPosts <- getTodayPostCount ;;
  if Nat.leb (env_maxPostsPerDay e) todaysPosts then ret tt
  else
    ni <- getUniqueNewsItem ;;
    match ni with
    | None => ret tt
    | Some newsItem =>
        result <- createAndPublishPost newsItem ;;
        if res_success result
        then modify (set_stats incr_successfulPosts)
        else modify (set_stats incr_failedPosts)
    end.

(** [try { body } catch { failedPosts++ } finally { isRunning = false }] *)
Definition cycle_rest : M unit :=
  finally_ (try_ cycle_body (fun _ => modify (set_stats incr_failedPosts)))
           (modify (set_stats (set_isRunning false))).

Definition runAutomationCycle : M unit :=
  fun w => if isRunning (stats w) then (Ok tt, w) else cycle_rest (cycle_start w).

End Service.

(* ------------------------------------------------------------------ *)
(** ** Triggers and in-flight cycles

    A trigger ([cron.schedule] callback or [runManualCycle]) runs the
    synchronous prefix of [runAutomationCycle] up to its first [await]:
    the [isRunning] guard and, when the guard lets it through,
    [cycle_start].  The rest of the cycle resumes later; in between the
    event loop may run further triggers.  Nothing else writes the
    statistics, so the resumed cycle computes what [cycle_rest] computes;
    [finish e] runs it to its end with the collaborators [e] of that
    cycle.  [inflight] counts the cycles started and not yet finished. *)

Record Sys := mkSys { sw : World; inflight : nat }.

Definition trigger (s : Sys) : Sys :=
  if isRunning (stats (sw s)) then s
  else mkSys (cycle_start (sw s)) (S (inflight s)).

Definition finish (e : Env) (s : Sys) : Sys :=
  mkSys (snd (cycle_rest e (sw s))) (pred (inflight s)).

Inductive sys_step : Sys -> Sys -> Prop :=
| step_trigger s : sys_step s (trigger s)
| step_finish e s : inflight s <> 0%nat -> sys_step s (finish e s).

(** The constructor of [AutomationService]: zero statistics, not running;
    the database may hold rows of earlier processes. *)
Definition fresh_stats : Stats := mkStats 0 0 0 0 false None.

Inductive reachable : Sys -> Prop :=
| reach_init w : stats w = fresh_stats -> reachable (mkSys w 0)
| reach_step s s' : reachable s -> sys_step s s' -> reachable s'.

(* ------------------------------------------------------------------ *)
(** ** Auxiliary notions for the proofs *)

Definition Keeps {A X : Type} (f : World -> X) (c : M A) : Prop :=
  forall w, f (snd (c w)) = f w.

(** The part of the statistics that only [runAutomationCycle] writes. *)
Definition core (w : World) : nat * nat * nat * bool :=
  (totalRuns (stats w), successfulPosts (stats w), failedPosts (stats w),
   isRunning (stats w)).

(** One pass through the body changes [successfulPosts] and [failedPosts]
    by at most one increment in total, and never [totalRuns] or
    [isRunning]. *)
Definition core_step (w w' : World) : Prop :=
  totalRuns (stats w') = totalRuns (stats w) /\
  isRunning (stats w') = isRunning (stats w) /\
  ((successfulPosts (stats w') = successfulPosts (stats w) /\
    failedPosts (stats w') = failedPosts (stats w)) \/
   (successfulPosts (stats w') = S (successfulPosts (stats w)) /\
    failedPosts (stats w') = failedPosts (stats w)) \/
   (successfulPosts (stats w') = successfulPosts (stats w) /\
    failedPosts (stats w') = S (failedPosts (stats w)))).

Definition sys_inv (s : Sys) : Prop :=
  (inflight s <= 1)%nat /\
  (isRunning (stats (sw s)) = true <-> inflight s = 1%nat) /\
  (successfulPosts (stats (sw s)) + failedPosts (stats (sw s)) + inflight s
     <= totalRuns (stats (sw s)))%nat.


(** Number of [newsService.getRandomNews()] calls in a call log. *)
Definition news_calls (l : list Call) : nat :=
  length (filter (fun c => match c with CallNews => true | _ => false end) l).

(** Number of calls to a platform client in a call log. *)
Definition platform_calls (p : Platform) (l : list Call) : nat :=
  length (filter (fun c => match c, p with
                           | CallPlatform Facebook, Facebook => true
                           | CallPlatform Instagram, Instagram => true
                           | _, _ => false
                           end) l).

(** Number of [processed_news] rows for a URL. *)
Definition url_count (u : string) (tbl : list NewsRow) : nat :=
  length (filter (fun r => String.eqb (nr_url r) u) tbl).

(** The [status] column of the [posts] row with a given id. *)
Definition post_status (id : nat) (w : World) : option PostStatus :=
  option_map pr_status (find (fun r => Nat.eqb (pr_id r) id) (posts (db w))).

(* ------------------------------------------------------------------ *)
(** ** [healthCheck] (AutomationService.js, lines 287-336) and
    [validateTokens] (part_006, lines 196-227) *)

Record Validation := mkValidation {
  v_facebook : bool;
  v_instagram : bool;
  v_errors : list string
}.

(** The two [axios.get] checks, each in its own [try]; the function
    itself cannot throw. *)
Definition validateTokens (fbCheck igCheck : Result unit) : Validation :=
  let '(fb, e1) := match fbCheck with
                   | Ok _ => (true, [])
                   | Throw m => (false, [String.append "Facebook token invalid: " m])
                   end in
  let '(ig, e2) := match igCheck with
                   | Ok _ => (true, [])
                   | Throw m => (false, [String.append "Instagram account invalid: " m])
                   end in
  mkValidation fb ig (e1 ++ e2).

(** Collaborators of the health check: [newsService.getMockNews],
    whether [FACEBOOK_ACCESS_TOKEN] is set, and the two token checks. *)
Record HealthEnv := mkHealthEnv {
  he_news : Result unit;
  he_tokenConfigured : bool;
  he_fbCheck : Result unit;
  he_igCheck : Result unit
}.

Record Health := mkHealth {
  h_database : bool;
  h_newsService : bool;
  h_socialMedia : bool;
  h_errors : list string
}.

Definition error_list (o : option string) : list string :=
  match o with Some m => [m] | None => [] end.

Definition healthCheck (e : Env) (he : HealthEnv) : M Health :=
  dbErr <- try_ (_ <- getRecentPosts e 1 ;; ret None)
                (fun m => ret (Some (String.append "Database: " m))) ;;
  newsErr <- try_ (_ <- liftR (he_news he) ;; ret None)
                  (fun m => ret (Some (String.append "News Service: " m))) ;;
  social <- (if he_tokenConfigured he then
               try_ (let validation := validateTokens (he_fbCheck he) (he_igCheck he) in
                     let ok := v_facebook validation && v_instagram validation in
                     ret (ok, if ok then [] else v_errors validation))
                    (fun m => ret (false, [String.append "Social Media: " m]))
             else ret (true, [])) ;;
  ret (mkHealth (match dbErr with None => true | Some _ => false end)
                (match newsErr with None => true | Some _ => false end)
                (fst social)
                (error_list dbErr ++ error_list newsErr ++ snd social)).

(** [isHealthy] of [healthCheck] and of the [/health] route. *)
Definition isHealthy (h : Health) : bool :=
  h_database h && h_newsService h && h_socialMedia h.

(** [shutdown()]: [this.isRunning = false] (closing the database is
    I/O outside the model); the cycle in flight, if any, goes on. *)
Definition shutdown_sys (s : Sys) : Sys :=
  mkSys (set_stats (set_isRunning false) (sw s)) (inflight s).

(* ------------------------------------------------------------------ *)
(** ** Well-formed tables *)

(** What SQLite guarantees about the two tables: UNIQUE [content_hash],
    distinct ids below the AUTOINCREMENT counter, UNIQUE [news_url]. *)
Definition db_wf (d : Db) : Prop :=
  NoDup (map pr_contentHash (posts d)) /\
  NoDup (map pr_id (posts d)) /\
  Forall (fun r => (pr_id r < nextPostId d)%nat) (posts d) /\
  NoDup (map nr_url (processed d)).

Definition wf_world (w : World) : Prop := db_wf (db w).

(** The columns of a [posts] row that no statement updates. *)
Definition post_key (r : PostRow) : nat * string * string * string * string * Z * string :=
  (pr_id r, pr_title r, pr_content r, pr_newsUrl r, pr_platform r, pr_postedAt r,
   pr_contentHash r).

(** [d'] is [d] with rows appended and only [status]/[error_message]
    of existing rows possibly changed. *)
Definition db_extends (d d' : Db) : Prop :=
  (exists l, map post_key (posts d') = map post_key (posts d) ++ l) /\
  (exists l, processed d' = processed d ++ l) /\
  (nextPostId d <= nextPostId d')%nat.

Definition Advances {A} (c : M A) : Prop :=
  forall w, db_extends (db w) (db (snd (c w))).

(** [c] increases the measure [f] by at most [n]. *)
Definition Grows {A} (f : World -> nat) (n : nat) (c : M A) : Prop :=
  forall w, (f (snd (c w)) <= f w + n)%nat.

(** What a computation may return. *)
Definition Returns {A} (Q : A -> Prop) (c : M A) : Prop :=
  forall w, match fst (c w) with Ok a => Q a | Throw _ => True end.

Definition Preserves {A} (P : World -> Prop) (c : M A) : Prop :=
  forall w, P w -> P (snd (c w)).

(* ------------------------------------------------------------------ *)
(** ** Concrete worlds and collaborators for evaluation *)

Module Fixtures.
Local Open Scope string_scope.

(** A fresh service at [Date.now() = 10^7] with empty tables. *)
Definition w0 : World :=
  mkWorld fresh_stats (mkDb [] 1 []) (mkSocial 0 0) 10000000 [].

Definition c0 : Content := mkContent "cap" "long" ["#news"].
Definition item_a : NewsItem := mkNewsItem "a" "X".

(** Every collaborator answers; [api] decides the platform calls and
    [mock] selects [mockPost]. *)
Definition env_with (api : Platform -> nat -> Z * Result string) (mock : bool) : Env :=
  mkEnv 10 (fun _ => Ok item_a) (fun _ => Ok c0) (fun s => s) (fun _ => Ok tt)
        (fun _ => Ok "img.png") mock api (fun _ => None).

Definition api_all_fail : Platform -> nat -> Z * Result string :=
  fun _ _ => (100, Throw "Request failed with status code 500").

Definition api_instagram_down : Platform -> nat -> Z * Result string :=
  fun p _ => match p with
             | Facebook => (100, Ok "fb_1")
             | Instagram => (100, Throw "Instagram requires an image for posts")
             end.

(** The SQLite driver rejects the [getRecentPosts] query. *)
Definition env_db_down : Env :=
  mkEnv 10 (fun _ => Ok item_a) (fun _ => Ok c0) (fun s => s) (fun _ => Ok tt)
        (fun _ => Ok "img.png") true api_all_fail
        (fun op => match op with DbRecent => Some "SQLITE_BUSY: database is locked" | _ => None end).

(** [url] ["a"] is already in [processed_news]. *)
Definition w_seen : World :=
  mkWorld fresh_stats (mkDb [] 1 [mkNewsRow "a" "X"]) (mkSocial 0 0) 10000000 [].

(** A [posts] row with id 1 awaiting its status. *)
Definition row_pending : PostRow :=
  mkPostRow 1 "X" "long" "a" "both" 10000000 Pending None "caplong".

Definition w_inserted : World :=
  mkWorld fresh_stats (mkDb [row_pending] 2 []) (mkSocial 0 0) 10000000 [].

(** An earlier post already has the hash of the content generated for
    [item_a] ([env_hash] is the identity here: ["cap" ++ "long"]). *)
Definition w_dup : World :=
  mkWorld fresh_stats (mkDb [mkPostRow 1 "Y" "long" "b" "both" 0 Published None "caplong"] 2 [])
          (mkSocial 0 0) 10000000 [].

End Fixtures.

(* ================================================================== *)
(** * Frame lemmas: which parts of the world a computation leaves alone *)

Create HintDb keeps.

Section KeepsLemmas.
Context {X : Type} (f : World -> X).

Lemma keeps_ret {A} (a : A) : Keeps f (ret a).
Proof. intro w; reflexivity. Qed.

Lemma keeps_throw {A} m : Keeps f (@throw A m).
Proof. intro w; reflexivity. Qed.

Lemma keeps_liftR {A} (r : Result A) : Keeps f (liftR r).
Proof. intro w; reflexivity. Qed.

Lemma keeps_get : Keeps f get.
Proof. intro w; reflexivity. Qed.

Lemma keeps_modify g : (forall w, f (g w) = f w) -> Keeps f (modify g).
Proof. intros H w; apply H. Qed.

Lemma keeps_bind {A B} (c : M A) (k : A -> M B) :
  Keeps f c -> (forall a, Keeps f (k a)) -> Keeps f (bind c k).
Proof.
  intros Hc Hk w; unfold bind.
  specialize (Hc w); destruct (c w) as [[a|m] w']; simpl in *.
  - rewrite Hk; exact Hc.
  - exact Hc.
Qed.

Lemma keeps_try {A} (c : M A) (h : string -> M A) :
  Keeps f c -> (forall m, Keeps f (h m)) -> Keeps f (try_ c h).
Proof.
  intros Hc Hh w; unfold try_.
  specialize (Hc w); destruct (c w) as [[a|m] w']; simpl in *.
  - exact Hc.
  - rewrite Hh; exact Hc.
Qed.

Lemma keeps_finally {A} (c : M A) (g : M unit) :
  Keeps f c -> Keeps f g -> Keeps f (finally_ c g).
Proof.
  intros Hc Hg w; unfold finally_.
  specialize (Hc w); destruct (c w) as [r w'].
  specialize (Hg w'); destruct (g w') as [[u|m] w'']; simpl in *; congruence.
Qed.

Lemma keeps_dbOp e {A} op (k : M A) : Keeps f k -> Keeps f (dbOp e op k).
Proof.
  intros Hk w; unfold dbOp; destruct (env_dbFail e op); [reflexivity | apply Hk].
Qed.

End KeepsLemmas.

Lemma keeps_core_of_stats {A} (c : M A) : Keeps stats c -> Keeps core c.
Proof. intros H w; unfold core; rewrite H; reflexivity. Qed.

Ltac keeps_tac :=
  repeat match goal with
  | |- Keeps _ _ => solve [eauto with keeps]
  | |- Keeps core ?c => apply keeps_core_of_stats; solve [eauto with keeps]
  | |- Keeps _ (bind _ _) => apply keeps_bind; [ | intro ]
  | |- Keeps _ (try_ _ _) => apply keeps_try; [ | intro ]
  | |- Keeps _ (finally_ _ _) => apply keeps_finally
  | |- Keeps _ (ret _) => apply keeps_ret
  | |- Keeps _ (throw _) => apply keeps_throw
  | |- Keeps _ (liftR _) => apply keeps_liftR
  | |- Keeps _ get => apply keeps_get
  | |- Keeps _ (modify _) => apply keeps_modify; intro; reflexivity
  | |- Keeps _ (dbOp _ _ _) => apply keeps_dbOp
  | |- Keeps _ (if ?b then _ else _) => destruct b
  | |- Keeps _ (match ?x with _ => _ end) => destruct x
  end.

Section KeepsService.
Variable e : Env.

Lemma getRecentPosts_keeps_all h : Keeps (fun w => w) (getRecentPosts e h).
Proof. unfold getRecentPosts; keeps_tac; intro w; reflexivity. Qed.

Lemma isNewsProcessed_keeps_all u : Keeps (fun w => w) (isNewsProcessed e u).
Proof. unfold isNewsProcessed; keeps_tac; intro w; reflexivity. Qed.

Lemma isContentDuplicate_keeps_all h : Keeps (fun w => w) (isContentDuplicate e h).
Proof. unfold isContentDuplicate; keeps_tac; intro w; reflexivity. Qed.

Lemma keeps_of_all {A X} (g : World -> X) (c : M A) : Keeps (fun w => w) c -> Keeps g c.
Proof. intros H w; rewrite H; reflexivity. Qed.

Lemma insertPost_keeps_stats t c u p h : Keeps stats (insertPost e t c u p h).
Proof.
  intro w; unfold insertPost, dbOp.
  destruct (env_dbFail e DbInsert); [reflexivity|].
  destruct (existsb _ _); reflexivity.
Qed.

End KeepsService.

#[export] Hint Resolve keeps_of_all getRecentPosts_keeps_all isNewsProcessed_keeps_all
  isContentDuplicate_keeps_all insertPost_keeps_stats : keeps.

Section KeepsPublish.
Context {X : Type} (f : World -> X).
Hypothesis f_now : forall t w, f (set_now t w) = f w.
Hypothesis f_calls : forall l w, f (set_calls l w) = f w.
Hypothesis f_social : forall g w, f (set_social g w) = f w.

Lemma delay_keeps ms : Keeps f (delay ms).
Proof. apply keeps_modify; intro; apply f_now. Qed.

Lemma logCall_keeps c : Keeps f (logCall c).
Proof. apply keeps_modify; intro; apply f_calls. Qed.

Lemma postToPlatform_keeps e p m a : Keeps f (postToPlatform e p m a).
Proof.
  unfold postToPlatform.
  apply keeps_bind; [apply logCall_keeps | intros []].
  apply keeps_bind; [apply keeps_get | intro w].
  destruct (negb _); [apply keeps_ret |].
  destruct (env_api e p a) as [lat r].
  apply keeps_bind; [apply delay_keeps | intros []].
  destruct r; [| apply keeps_ret].
  apply keeps_bind; [apply keeps_modify; intro; apply f_social | intros []; apply keeps_ret].
Qed.

Lemma publishRound_keeps e a : Keeps f (publishRound e a).
Proof.
  unfold publishRound, mockPost, postToAllPlatforms, postToFacebook, postToInstagram.
  destruct (env_mock e); [apply keeps_ret |].
  apply keeps_bind; [apply postToPlatform_keeps | intro].
  apply keeps_bind; [apply delay_keeps | intros []].
  apply keeps_bind; [apply postToPlatform_keeps | intro; apply keeps_ret].
Qed.

Lemma retryLoop_keeps round :
  (forall a, Keeps f (round a)) ->
  forall fuel a res, Keeps f (retryLoop round fuel a res).
Proof.
  intros Hr fuel; induction fuel as [|fuel IH]; intros a res; simpl.
  - apply keeps_ret.
  - apply keeps_bind.
    + apply keeps_try; [apply keeps_bind; [apply Hr | intro; apply keeps_ret] | intro; apply keeps_ret].
    + intros [r|m].
      * destruct (Nat.eqb _ 0); [apply keeps_ret |].
        destruct (Nat.ltb _ _); [| apply keeps_ret].
        apply keeps_bind; [apply delay_keeps | intros []; apply IH].
      * destruct (Nat.ltb _ _); [| apply keeps_ret].
        apply keeps_bind; [apply delay_keeps | intros []; apply IH].
Qed.

Lemma publishWithRetry_keeps e : Keeps f (publishWithRetry (publishRound e)).
Proof. apply retryLoop_keeps, publishRound_keeps. Qed.

End KeepsPublish.

Lemma publishWithRetry_keeps_stats e : Keeps stats (publishWithRetry (publishRound e)).
Proof. apply publishWithRetry_keeps; reflexivity. Qed.

Lemma publishWithRetry_keeps_db e : Keeps db (publishWithRetry (publishRound e)).
Proof. apply publishWithRetry_keeps; reflexivity. Qed.

Lemma uniqueLoop_keeps_stats_db e : forall fuel a,
  Keeps (fun w => (stats w, db w)) (uniqueLoop e fuel a).
Proof.
  intro fuel; induction fuel as [|fuel IH]; intro a; simpl; [apply keeps_ret|].
  unfold selectAttempt, getRandomNews, logCall; keeps_tac.
Qed.

Lemma getUniqueNewsItem_keeps_stats e : Keeps stats (getUniqueNewsItem e).
Proof.
  intro w; pose proof (uniqueLoop_keeps_stats_db e maxAttempts 0 w) as H.
  injection H; auto.
Qed.

Lemma getUniqueNewsItem_keeps_db e : Keeps db (getUniqueNewsItem e).
Proof.
  intro w; pose proof (uniqueLoop_keeps_stats_db e maxAttempts 0 w) as H.
  injection H; auto.
Qed.

#[export] Hint Resolve publishWithRetry_keeps_stats publishWithRetry_keeps_db
  getUniqueNewsItem_keeps_stats getUniqueNewsItem_keeps_db : keeps.

Lemma getTodayPostCount_keeps_all e : Keeps (fun w => w) (getTodayPostCount e).
Proof. unfold getTodayPostCount; keeps_tac. Qed.

#[export] Hint Resolve getTodayPostCount_keeps_all : keeps.

Lemma createAndPublishPost_keeps_core e item : Keeps core (createAndPublishPost e item).
Proof.
  unfold createAndPublishPost, phase1, phase2, updatePostStatus, markNewsAsProcessed.
  keeps_tac.
Qed.

Lemma core_eq_step w w' : core w' = core w -> core_step w w'.
Proof.
  unfold core; intro H; injection H as H1 H2 H3 H4.
  unfold core_step; auto.
Qed.

Lemma cycle_body_core e w :
  match cycle_body e w with
  | (Ok _, w') => core_step w w'
  | (Throw _, w') => core w' = core w
  end.
Proof.
  unfold cycle_body, bind at 1.
  pose proof (getTodayPostCount_keeps_all e w) as H1; simpl in H1.
  destruct (getTodayPostCount e w) as [[n|m] w1]; simpl in H1; subst w1; [|reflexivity].
  destruct (Nat.leb _ _); [apply core_eq_step; reflexivity|].
  unfold bind at 1.
  pose proof (keeps_core_of_stats _ (getUniqueNewsItem_keeps_stats e) w) as H2.
  destruct (getUniqueNewsItem e w) as [[ni|m] w2]; simpl in H2; [|exact H2].
  destruct ni as [item|]; [|apply core_eq_step; exact H2].
  unfold bind.
  pose proof (createAndPublishPost_keeps_core e item w2) as H3.
  destruct (createAndPublishPost e item w2) as [[r|m] w3]; simpl in H3; [|congruence].
  assert (H : core w3 = core w) by congruence; clear H2 H3.
  unfold core in H; injection H as E1 E2 E3 E4.
  destruct (res_success r); simpl; unfold core_step; simpl; rewrite ?E1, ?E2, ?E3, ?E4;
    intuition.
Qed.

Lemma cycle_rest_core e w :
  fst (cycle_rest e w) = Ok tt /\
  isRunning (stats (snd (cycle_rest e w))) = false /\
  totalRuns (stats (snd (cycle_rest e w))) = totalRuns (stats w) /\
  let w' := snd (cycle_rest e w) in
  ((successfulPosts (stats w') = successfulPosts (stats w) /\
    failedPosts (stats w') = failedPosts (stats w)) \/
   (successfulPosts (stats w') = S (successfulPosts (stats w)) /\
    failedPosts (stats w') = failedPosts (stats w)) \/
   (successfulPosts (stats w') = successfulPosts (stats w) /\
    failedPosts (stats w') = S (failedPosts (stats w)))).
Proof.
  pose proof (cycle_body_core e w) as H.
  unfold cycle_rest, finally_, try_.
  destruct (cycle_body e w) as [[[]|m] w1].
  - destruct H as (E1 & E2 & E3); simpl; rewrite E1; intuition.
  - unfold core in H; injection H as E1 E2 E3 E4; simpl; rewrite E1, E2, E3; intuition.
Qed.

(* ================================================================== *)
(** * Single flight and the statistics invariant *)

Lemma sys_inv_init w : stats w = fresh_stats -> sys_inv (mkSys w 0).
Proof.
  intro H; unfold sys_inv; simpl; rewrite H; simpl.
  split; [lia | split; [split; discriminate | lia]].
Qed.

Lemma sys_inv_trigger s : sys_inv s -> sys_inv (trigger s).
Proof.
  unfold sys_inv, trigger; intros (H1 & H2 & H3).
  destruct (isRunning (stats (sw s))) eqn:R; [tauto |].
  assert (inflight s = 0%nat).
  { destruct (inflight s) as [|[|k]]; [reflexivity | | lia].
    destruct H2 as [_ H2]; specialize (H2 eq_refl); congruence. }
  simpl; rewrite H; split; [lia | split; [split; reflexivity | lia]].
Qed.

Lemma sys_inv_finish e s : inflight s <> 0%nat -> sys_inv s -> sys_inv (finish e s).
Proof.
  unfold sys_inv, finish; simpl; intros Hn (H1 & H2 & H3).
  destruct (cycle_rest_core e (sw s)) as (_ & R & T & D).
  assert (inflight s = 1%nat) by lia.
  rewrite R, T; simpl.
  split; [lia | split; [split; [discriminate | lia] |]].
  destruct D as [[D1 D2] | [[D1 D2] | [D1 D2]]]; rewrite D1, D2; lia.
Qed.

Lemma reachable_inv s : reachable s -> sys_inv s.
Proof.
  induction 1 as [w Hw | s s' _ IH Hstep].
  - apply sys_inv_init, Hw.
  - destruct Hstep; [apply sys_inv_trigger | apply sys_inv_finish]; auto.
Qed.

(** A cycle whose selection finds no unique news item leaves both
    counters as they were. *)
Lemma exhaustion_counts e w n w1 w2 :
  isRunning (stats w) = false ->
  getTodayPostCount e (cycle_start w) = (Ok n, w1) ->
  (n < env_maxPostsPerDay e)%nat ->
  getUniqueNewsItem e w1 = (Ok None, w2) ->
  let w' := snd (runAutomationCycle e w) in
  successfulPosts (stats w') = successfulPosts (stats w) /\
  failedPosts (stats w') = failedPosts (stats w).
Proof.
  intros R E Hlt U; unfold runAutomationCycle; rewrite R.
  pose proof (getTodayPostCount_keeps_all e (cycle_start w)) as K.
  rewrite E in K; simpl in K; subst w1.
  pose proof (getUniqueNewsItem_keeps_stats e (cycle_start w)) as K2.
  rewrite U in K2; simpl in K2.
  unfold cycle_rest, finally_, try_, cycle_body, bind; rewrite E.
  apply Nat.leb_gt in Hlt; rewrite Hlt, U; simpl; rewrite K2; simpl; auto.
Qed.

(** C4. In every state reachable from a fresh service by triggers and
    completions of cycles, at most one cycle is in flight and [isRunning]
    is set exactly when one is; a trigger while [isRunning] leaves the
    whole state unchanged (no stage runs, no statistic moves), and so
    does [runAutomationCycle] on a world where [isRunning] is set. *)
Theorem single_flight :
  (forall s, reachable s ->
     (inflight s <= 1)%nat /\ (isRunning (stats (sw s)) = true <-> inflight s = 1%nat)) /\
  (forall s, isRunning (stats (sw s)) = true -> trigger s = s) /\
  (forall e w, isRunning (stats w) = true -> runAutomationCycle e w = (Ok tt, w)).
Proof.
  split; [| split].
  - intros s Hs; destruct (reachable_inv s Hs) as (H1 & H2 & _); auto.
  - intros s H; unfold trigger; rewrite H; reflexivity.
  - intros e w H; unfold runAutomationCycle; rewrite H; reflexivity.
Qed.

Lemma single_flight_witness :
  (inflight (trigger (mkSys Fixtures.w0 0)) <= 1)%nat /\
  trigger (trigger (mkSys Fixtures.w0 0)) = trigger (mkSys Fixtures.w0 0).
Proof.
  split.
  - apply (proj1 single_flight).
    eapply reach_step; [apply (reach_init Fixtures.w0); reflexivity | apply step_trigger].
  - apply (proj1 (proj2 single_flight)); reflexivity.
Defined.

(** C10. A dropped trigger changes no statistic; a trigger that runs
    increments [totalRuns] once and at most one of [successfulPosts] and
    [failedPosts]; a quota skip and a selection that finds nothing
    increment neither; in every reachable state
    [successfulPosts + failedPosts <= totalRuns]. *)
Theorem stats_invariant :
  (forall s, isRunning (stats (sw s)) = true -> stats (sw (trigger s)) = stats (sw s)) /\
  (forall e w, isRunning (stats w) = false ->
     let w' := snd (runAutomationCycle e w) in
     totalRuns (stats w') = S (totalRuns (stats w)) /\
     ((successfulPosts (stats w') = successfulPosts (stats w) /\
       failedPosts (stats w') = failedPosts (stats w)) \/
      (successfulPosts (stats w') = S (successfulPosts (stats w)) /\
       failedPosts (stats w') = failedPosts (stats w)) \/
      (successfulPosts (stats w') = successfulPosts (stats w) /\
       failedPosts (stats w') = S (failedPosts (stats w))))) /\
  (forall e w n w1, isRunning (stats w) = false ->
     getTodayPostCount e (cycle_start w) = (Ok n, w1) ->
     (env_maxPostsPerDay e <= n)%nat ->
     let w' := snd (runAutomationCycle e w) in
     successfulPosts (stats w') = successfulPosts (stats w) /\
     failedPosts (stats w') = failedPosts (stats w)) /\
  (forall e w n w1 w2, isRunning (stats w) = false ->
     getTodayPostCount e (cycle_start w) = (Ok n, w1) ->
     (n < env_maxPostsPerDay e)%nat ->
     getUniqueNewsItem e w1 = (Ok None, w2) ->
     let w' := snd (runAutomationCycle e w) in
     successfulPosts (stats w') = successfulPosts (stats w) /\
     failedPosts (stats w') = failedPosts (stats w)) /\
  (forall s, reachable s ->
     (successfulPosts (stats (sw s)) + failedPosts (stats (sw s)) <= totalRuns (stats (sw s)))%nat).
Proof.
  split; [| split; [| split; [| split]]].
  - intros s H; unfold trigger; rewrite H; reflexivity.
  - intros e w R; unfold runAutomationCycle; rewrite R.
    destruct (cycle_rest_core e (cycle_start w)) as (_ & _ & T & D).
    simpl; rewrite T; simpl; exact (conj eq_refl D).
  - intros e w n w1 R E Hle; unfold runAutomationCycle; rewrite R.
    pose proof (getTodayPostCount_keeps_all e (cycle_start w)) as K.
    rewrite E in K; simpl in K; subst w1.
    unfold cycle_rest, finally_, try_, cycle_body, bind; rewrite E.
    apply Nat.leb_le in Hle; rewrite Hle; simpl; auto.
  - intros e w n w1 w2; apply exhaustion_counts.
  - intros s Hs; destruct (reachable_inv s Hs) as (_ & _ & H); lia.
Qed.

Lemma stats_invariant_witness :
  isRunning (stats Fixtures.w0) = false /\
  let w' := snd (runAutomationCycle (Fixtures.env_with Fixtures.api_all_fail false) Fixtures.w0) in
  totalRuns (stats w') = 1%nat.
Proof.
  split; [reflexivity |].
  destruct (proj1 (proj2 stats_invariant) (Fixtures.env_with Fixtures.api_all_fail false)
              Fixtures.w0 eq_refl) as [T _].
  exact T.
Defined.

(** C5. Whatever the collaborators do, a cycle that starts returns
    normally to its caller (nothing is re-thrown) with [isRunning]
    cleared; when an exception escapes the body of the [try], the cycle
    ends in the world the exception left, with [failedPosts] one higher
    than before the trigger and [isRunning] false. *)
Theorem cycle_catches_all e w :
  isRunning (stats w) = false ->
  fst (runAutomationCycle e w) = Ok tt /\
  isRunning (stats (snd (runAutomationCycle e w))) = false /\
  (forall m w1, cycle_body e (cycle_start w) = (Throw m, w1) ->
     runAutomationCycle e w =
       (Ok tt, set_stats (set_isRunning false) (set_stats incr_failedPosts w1)) /\
     failedPosts (stats (snd (runAutomationCycle e w))) = S (failedPosts (stats w))).
Proof.
  intro R.
  destruct (cycle_rest_core e (cycle_start w)) as (Ok1 & Run & _).
  unfold runAutomationCycle; rewrite R.
  split; [exact Ok1 | split; [exact Run |]].
  intros m w1 B.
  pose proof (cycle_body_core e (cycle_start w)) as C; rewrite B in C.
  unfold core in C; injection C as _ _ F _.
  unfold cycle_rest, finally_, try_; rewrite B.
  split; [reflexivity | simpl; rewrite F; reflexivity].
Qed.

Lemma cycle_catches_all_witness :
  failedPosts (stats (snd (runAutomationCycle Fixtures.env_db_down Fixtures.w0))) = 1%nat.
Proof.
  destruct (cycle_catches_all Fixtures.env_db_down Fixtures.w0 eq_refl) as (_ & _ & H).
  eapply H; reflexivity.
Defined.

(** One iteration of the selection loop: one [getRandomNews] call, the
    database untouched, and an item is returned only when
    [isNewsProcessed] found no row for its URL. *)
Lemma selectAttempt_spec e a w :
  exists r, selectAttempt e a w = (Ok r, set_calls (calls w ++ [CallNews]) w) /\
    (forall item, r = Some item ->
       existsb (fun row => String.eqb (nr_url row) (url item)) (processed (db w)) = false).
Proof.
  unfold selectAttempt, try_, bind, getRandomNews, logCall, modify, liftR.
  destruct (env_news e a) as [item|m]; [| exists None; split; [reflexivity | discriminate]].
  unfold isNewsProcessed, dbOp, ret.
  destruct (env_dbFail e DbIsProcessed); [exists None; split; [reflexivity | discriminate] |].
  simpl.
  destruct (existsb _ _) eqn:E.
  - exists None; split; [reflexivity | discriminate].
  - exists (Some item); split; [reflexivity | intros i Hi; injection Hi as <-; exact E].
Qed.

Lemma news_calls_app l c : news_calls (l ++ [c]) =
  (news_calls l + match c with CallNews => 1 | _ => 0 end)%nat.
Proof. unfold news_calls; rewrite filter_app, length_app; destruct c; reflexivity. Qed.

Lemma uniqueLoop_spec e : forall fuel a w,
  match uniqueLoop e fuel a w with
  | (Ok (Some item), w') =>
      existsb (fun row => String.eqb (nr_url row) (url item)) (processed (db w)) = false /\
      (news_calls (calls w') <= news_calls (calls w) + fuel)%nat
  | (Ok None, w') => (news_calls (calls w') <= news_calls (calls w) + fuel)%nat
  | (Throw _, _) => False
  end.
Proof.
  intro fuel; induction fuel as [|fuel IH]; intros a w; simpl; [lia|].
  destruct (selectAttempt_spec e a w) as (r & E & Hr).
  unfold bind; rewrite E.
  destruct r as [item|].
  - simpl; split; [apply (Hr item eq_refl) | rewrite news_calls_app; lia].
  - specialize (IH (S a) (set_calls (calls w ++ [CallNews]) w)).
    destruct (uniqueLoop e fuel (S a) _) as [[[item|]|m] w'];
      simpl in IH; rewrite ?news_calls_app in IH; simpl in IH.
    + destruct IH as [IH1 IH2]; split; [exact IH1 | lia].
    + lia.
    + exact IH.
Qed.

(** C6. [getUniqueNewsItem] never throws; an item it returns has a URL
    with no [processed_news] row; it calls [getRandomNews] at most
    [maxAttempts = 10] times; and when it finds nothing the cycle ends
    without touching [failedPosts] (or [successfulPosts]). *)
Theorem unique_news_selection :
  (forall e w,
     match getUniqueNewsItem e w with
     | (Ok (Some item), w') =>
         existsb (fun row => String.eqb (nr_url row) (url item)) (processed (db w)) = false /\
         (news_calls (calls w') <= news_calls (calls w) + 10)%nat
     | (Ok None, w') => (news_calls (calls w') <= news_calls (calls w) + 10)%nat
     | (Throw _, _) => False
     end) /\
  (forall e w n w1 w2, isRunning (stats w) = false ->
     getTodayPostCount e (cycle_start w) = (Ok n, w1) ->
     (n < env_maxPostsPerDay e)%nat ->
     getUniqueNewsItem e w1 = (Ok None, w2) ->
     let w' := snd (runAutomationCycle e w) in
     failedPosts (stats w') = failedPosts (stats w) /\
     successfulPosts (stats w') = successfulPosts (stats w)).
Proof.
  split.
  - intros e w; exact (uniqueLoop_spec e maxAttempts 0 w).
  - intros e w n w1 w2 R E Hlt U.
    destruct (exhaustion_counts e w n w1 w2 R E Hlt U) as [S1 F1]; auto.
Qed.

Lemma unique_news_selection_witness :
  let e := Fixtures.env_with Fixtures.api_all_fail true in
  failedPosts (stats (snd (runAutomationCycle e Fixtures.w_seen))) =
    failedPosts (stats Fixtures.w_seen).
Proof.
  intro e.
  refine (proj1 (proj2 unique_news_selection e Fixtures.w_seen 0%nat _ _ eq_refl _ _ _));
    [reflexivity | simpl; lia | reflexivity].
Defined.

Lemma retryLoop_total round : forall fuel a res w,
  exists out w', retryLoop round fuel a res w = (Ok out, w').
Proof.
  intro fuel; induction fuel as [|fuel IH]; intros a res w; simpl; [eexists; eexists; reflexivity|].
  unfold bind at 1, try_, bind at 1.
  destruct (round a w) as [[r|m] w1]; simpl.
  - destruct (Nat.eqb _ 0); [eexists; eexists; reflexivity|].
    destruct (Nat.ltb _ _); [| eexists; eexists; reflexivity].
    unfold bind, delay, modify; apply IH.
  - destruct (Nat.ltb _ _); [| eexists; eexists; reflexivity].
    unfold bind, delay, modify; apply IH.
Qed.

Lemma round_throws (round : nat -> M (list Outcome)) (msg : nat -> string) a w :
  (forall a w, fst (round a w) = Throw (msg a)) ->
  round a w = (Throw (msg a), snd (round a w)).
Proof. intro H; rewrite <- (H a w); destruct (round a w); reflexivity. Qed.

(** C7. [publishWithRetry] returns normally whatever the per-attempt call
    does; when that call throws in every attempt, the result is one
    failed entry for [facebook] and one for [instagram], both carrying
    the message caught in the last attempt.  Below it, a platform client
    never throws: a rejected HTTP call becomes a failed outcome with its
    message, and [postToAllPlatforms] always yields one outcome per
    platform. *)
Theorem publish_never_throws :
  (forall round w, exists out w', publishWithRetry round w = (Ok out, w')) /\
  (forall round (msg : nat -> string) w,
     (forall a w, fst (round a w) = Throw (msg a)) ->
     fst (publishWithRetry round w) =
       Ok [failed Facebook (msg 2%nat); failed Instagram (msg 2%nat)]) /\
  (forall e p rateMsg a w lat m,
     canPost (social w) p (now w) = true -> env_api e p a = (lat, Throw m) ->
     fst (postToPlatform e p rateMsg a w) = Ok (failed p m)) /\
  (forall e a w, exists fb ig, fst (postToAllPlatforms e a w) = Ok [fb; ig] /\
     o_platform fb = Facebook /\ o_platform ig = Instagram).
Proof.
  split; [| split; [| split]].
  - intros round w; apply retryLoop_total.
  - intros round msg w H.
    cbv beta iota fix zeta delta [publishWithRetry maxRetries retryLoop bind try_ delay modify ret].
    rewrite (round_throws round msg 0 w H); cbn.
    rewrite (round_throws round msg 1 _ H); cbn.
    rewrite (round_throws round msg 2 _ H); reflexivity.
  - intros e p rateMsg a w lat m C A.
    unfold postToPlatform, bind, logCall, modify, get; simpl.
    rewrite C, A; reflexivity.
  - intros e a w.
    unfold postToAllPlatforms, postToFacebook, postToInstagram, postToPlatform,
      bind, logCall, modify, get, delay, ret.
    simpl.
    destruct (canPost _ Facebook _); simpl;
      [destruct (env_api e Facebook a) as [l1 [r1|m1]]; simpl | ];
      destruct (canPost _ Instagram _); simpl;
      try (destruct (env_api e Instagram a) as [l2 [r2|m2]]; simpl);
      eexists; eexists; split; try reflexivity; split; reflexivity.
Qed.

Lemma publish_never_throws_witness :
  fst (publishWithRetry (fun _ => throw "ECONNRESET") Fixtures.w0) =
    Ok [failed Facebook "ECONNRESET"; failed Instagram "ECONNRESET"].
Proof.
  exact (proj1 (proj2 publish_never_throws) (fun _ => throw "ECONNRESET")
           (fun _ => "ECONNRESET"%string) Fixtures.w0 (fun _ _ => eq_refl)).
Defined.

(** C8. With [minInterval = 60 * 60 * 1000], once a publish to platform
    [p] is recorded at [t], [canPost p] at [t'] holds exactly when
    [t' - t >= 1 h]; in particular it is false for [t <= t' < t + 1 h].
    A successful [postToFacebook]/[postToInstagram] records [Date.now()]
    of its completion. *)
Theorem can_post_after_record :
  (forall s p t t', canPost (recordPublish s p t) p t' = Z.leb 3600000 (t' - t)) /\
  (forall s p t t', t <= t' < t + 3600000 -> canPost (recordPublish s p t) p t' = false) /\
  (forall e p rateMsg a w o w', postToPlatform e p rateMsg a w = (Ok o, w') ->
     o_success o = true -> lastPostTime (social w') p = now w').
Proof.
  assert (H : forall s p t t', canPost (recordPublish s p t) p t' = Z.leb 3600000 (t' - t)).
  { intros s p t t'; unfold canPost, lastPostTime, recordPublish, minInterval.
    destruct p; simpl;
      (destruct (Z.eqb t 0) eqn:E; [apply Z.eqb_eq in E; subst t; rewrite Z.sub_0_r |]);
      reflexivity. }
  split; [exact H | split].
  - intros s p t t' Ht; rewrite H; apply Z.leb_gt; lia.
  - intros e p rateMsg a w o w' Hrun Hs.
    unfold postToPlatform, bind, logCall, modify, get, ret in Hrun; simpl in Hrun.
    destruct (canPost _ p _); simpl in Hrun.
    + destruct (env_api e p a) as [lat [r|m]]; simpl in Hrun;
        injection Hrun as <- <-; [| discriminate Hs].
      destruct p; reflexivity.
    + injection Hrun as <- <-; discriminate Hs.
Qed.

Lemma can_post_after_record_witness :
  canPost (recordPublish (mkSocial 0 0) Facebook 10000000) Facebook 10000000 = false.
Proof.
  apply (proj1 (proj2 can_post_after_record)); lia.
Defined.

Lemma insert_or_ignore_present tbl u t :
  existsb (fun r => String.eqb (nr_url r) u) tbl = true -> insert_or_ignore tbl u t = tbl.
Proof. unfold insert_or_ignore; intros ->; reflexivity. Qed.

Lemma insert_or_ignore_has tbl u t :
  existsb (fun r => String.eqb (nr_url r) u) (insert_or_ignore tbl u t) = true.
Proof.
  unfold insert_or_ignore; destruct (existsb _ tbl) eqn:E; [exact E|].
  rewrite existsb_app; simpl; rewrite String.eqb_refl, orb_true_r; reflexivity.
Qed.

Lemma url_count_insert_or_ignore tbl u t :
  (url_count u tbl <= 1)%nat -> url_count u (insert_or_ignore tbl u t) = 1%nat.
Proof.
  unfold url_count, insert_or_ignore; intro Hle.
  destruct (existsb _ tbl) eqn:E.
  - apply existsb_exists in E; destruct E as (r & Hin & Hr).
    assert (In r (filter (fun r => String.eqb (nr_url r) u) tbl)) by (apply filter_In; auto).
    destruct (filter _ tbl) as [|x [|y l]]; simpl in *; [contradiction | reflexivity | lia].
  - rewrite filter_app, length_app; simpl; rewrite String.eqb_refl; simpl.
    assert (filter (fun r => String.eqb (nr_url r) u) tbl = []) as ->.
    { destruct (filter _ tbl) as [|x l] eqn:F; [reflexivity|].
      assert (Hx : In x (filter (fun r => String.eqb (nr_url r) u) tbl)) by (rewrite F; left; reflexivity).
      apply filter_In in Hx; destruct Hx as [Hx1 Hx2].
      assert (existsb (fun r => String.eqb (nr_url r) u) tbl = true)
        by (apply existsb_exists; exists x; auto).
      congruence. }
    reflexivity.
Qed.

(** C9. [markNewsAsProcessed] is idempotent: on a [processed_news] table
    that satisfies its UNIQUE constraint and without a driver I/O error,
    a first and a second call with the same URL (any titles) both
    resolve, the second leaves the world unchanged, and exactly one row
    for the URL remains. *)
Theorem mark_news_idempotent e u t t' w :
  env_dbFail e DbMark = None ->
  (url_count u (processed (db w)) <= 1)%nat ->
  let (r1, w1) := markNewsAsProcessed e u t w in
  let (r2, w2) := markNewsAsProcessed e u t' w1 in
  r1 = Ok tt /\ r2 = Ok tt /\ w2 = w1 /\ url_count u (processed (db w2)) = 1%nat.
Proof.
  intros Hio Hle.
  unfold markNewsAsProcessed, dbOp, modify, set_db; rewrite Hio; simpl.
  rewrite (insert_or_ignore_present _ u t' (insert_or_ignore_has _ u t)).
  split; [reflexivity | split; [reflexivity | split]].
  - reflexivity.
  - simpl; apply url_count_insert_or_ignore, Hle.
Qed.

Lemma mark_news_idempotent_witness :
  let e := Fixtures.env_with Fixtures.api_all_fail true in
  env_dbFail e DbMark = None /\
  (url_count "a" (processed (db Fixtures.w_seen)) <= 1)%nat /\
  (let (r1, w1) := markNewsAsProcessed e "a" "X" Fixtures.w_seen in
   let (r2, w2) := markNewsAsProcessed e "a" "Y" w1 in
   r1 = Ok tt /\ r2 = Ok tt /\ w2 = w1 /\ url_count "a" (processed (db w2)) = 1%nat).
Proof.
  intro e; split; [reflexivity | split; [vm_compute; lia |]].
  apply mark_news_idempotent; [reflexivity | vm_compute; lia].
Defined.

(* ------------------------------------------------------------------ *)
(** ** Post status after publishing (C1) *)

Lemma markNewsAsProcessed_keeps_posts e u t :
  Keeps (fun w => posts (db w)) (markNewsAsProcessed e u t).
Proof. unfold markNewsAsProcessed; keeps_tac. Qed.

Lemma find_updated (l : list PostRow) id st err :
  In id (map pr_id l) ->
  option_map pr_status
    (find (fun r => Nat.eqb (pr_id r) id)
       (map (fun r => if Nat.eqb (pr_id r) id
                      then mkPostRow (pr_id r) (pr_title r) (pr_content r)
                             (pr_newsUrl r) (pr_platform r) (pr_postedAt r)
                             st err (pr_contentHash r)
                      else r) l)) = Some st.
Proof.
  induction l as [|r l IH]; simpl; [contradiction|].
  intro Hin; destruct (Nat.eqb (pr_id r) id) eqn:E; simpl.
  - rewrite E; reflexivity.
  - rewrite E; apply IH; destruct Hin as [Hr|Hin]; [|exact Hin].
    subst id; rewrite Nat.eqb_refl in E; discriminate.
Qed.

(** C1 (as the code has it).  After [publishWithRetry] returns the
    outcome list [outs] for an inserted post, the row's status is
    ['published'] when every outcome succeeded and ['partial_failure']
    otherwise, also when no outcome succeeded. *)
Theorem post_status_after_publish e item postId w outs w1 :
  publishWithRetry (publishRound e) w = (Ok outs, w1) ->
  env_dbFail e DbUpdate = None ->
  In postId (map pr_id (posts (db w))) ->
  post_status postId (snd (phase2 e item postId w)) =
    Some (if forallb o_success outs then Published else PartialFailure).
Proof.
  intros P U Hin.
  pose proof (publishWithRetry_keeps_db e w) as K; rewrite P in K; simpl in K.
  unfold phase2, bind at 1; rewrite P.
  unfold bind at 1, updatePostStatus, dbOp at 1; rewrite U.
  unfold modify at 1.
  set (w2 := set_db _ w1).
  unfold bind.
  pose proof (markNewsAsProcessed_keeps_posts e (url item) (title item) w2) as K2.
  destruct (markNewsAsProcessed e (url item) (title item) w2) as [[[]|m] w3];
    simpl in K2 |- *; unfold post_status; rewrite K2; unfold w2; simpl;
    apply find_updated; rewrite K; exact Hin.
Qed.

Lemma post_status_after_publish_witness :
  post_status 1 (snd (phase2 (Fixtures.env_with Fixtures.api_all_fail true)
                        Fixtures.item_a 1 Fixtures.w_inserted)) = Some Published.
Proof.
  exact (post_status_after_publish (Fixtures.env_with Fixtures.api_all_fail true)
           Fixtures.item_a 1 Fixtures.w_inserted
           [succeeded Facebook; succeeded Instagram] Fixtures.w_inserted
           eq_refl eq_refl (or_introl eq_refl)).
Defined.

(** C1 fails as stated: with both platform clients failing in every
    attempt (no outcome succeeds), the persisted status of the post is
    ['partial_failure'], not ['failed']. *)
Lemma aggregate_status_counterexample :
  let e := Fixtures.env_with Fixtures.api_all_fail false in
  map (fun r => (pr_status r, pr_error r))
      (posts (db (snd (runAutomationCycle e Fixtures.w0)))) =
    [(PartialFailure,
      Some "facebook: Request failed with status code 500; instagram: Request failed with status code 500"%string)].
Proof. vm_compute; reflexivity. Qed.

(* ------------------------------------------------------------------ *)
(** ** Which platforms each retry attempt invokes (C2) *)

Lemma postToPlatform_calls e p rm a w :
  exists o, fst (postToPlatform e p rm a w) = Ok o /\
    calls (snd (postToPlatform e p rm a w)) = calls w ++ [CallPlatform p].
Proof.
  unfold postToPlatform, bind, logCall, modify, get, ret, delay; simpl.
  destruct (canPost _ p _); simpl; [| eexists; split; reflexivity].
  destruct (env_api e p a) as [lat [r|m]]; simpl; eexists; split; reflexivity.
Qed.

Lemma postToAllPlatforms_calls e a w :
  exists out, fst (postToAllPlatforms e a w) = Ok out /\
    calls (snd (postToAllPlatforms e a w)) =
      calls w ++ [CallPlatform Facebook; CallPlatform Instagram].
Proof.
  unfold postToAllPlatforms, postToFacebook, postToInstagram, bind, delay, modify, ret.
  set (m1 := "Rate limit: Too soon since last Facebook post"%string).
  set (m2 := "Rate limit: Too soon since last Instagram post"%string).
  destruct (postToPlatform_calls e Facebook m1 a w) as (o1 & E1 & C1).
  destruct (postToPlatform e Facebook m1 a w) as [r1 w1]; simpl in E1, C1; subst r1.
  destruct (postToPlatform_calls e Instagram m2 a (set_now (now w1 + 5000) w1)) as (o2 & E2 & C2).
  destruct (postToPlatform e Instagram m2 a (set_now (now w1 + 5000) w1)) as [r2 w2];
    simpl in E2, C2; subst r2.
  eexists; split; [reflexivity|]; simpl; rewrite C2; simpl; rewrite C1, <- app_assoc; reflexivity.
Qed.

Lemma retryLoop_calls round L :
  (forall a w, exists out, fst (round a w) = Ok out /\ calls (snd (round a w)) = calls w ++ L) ->
  forall fuel a res w, exists k, (k <= fuel)%nat /\ (fuel <> 0%nat -> (1 <= k)%nat) /\
    calls (snd (retryLoop round fuel a res w)) = calls w ++ concat (repeat L k).
Proof.
  intros HR fuel; induction fuel as [|fuel IH]; intros a res w.
  - exists 0%nat; simpl; rewrite app_nil_r; split; [lia | split; [congruence | reflexivity]].
  - destruct (HR a w) as (out & E & C).
    simpl; unfold bind at 1, try_, bind at 1.
    destruct (round a w) as [r w1]; simpl in E, C; subst r.
    assert (one : calls w1 = calls w ++ concat (repeat L 1)) by (simpl; rewrite app_nil_r; exact C).
    simpl.
    destruct (Nat.eqb _ 0); [exists 1%nat; split; [lia | split; [lia | exact one]] |].
    destruct (Nat.ltb _ _); [| exists 1%nat; split; [lia | split; [lia | exact one]]].
    unfold bind, delay, modify.
    destruct (IH (S a) out (set_now (now w1 + retryDelay) w1)) as (k & Hk & _ & Ck).
    exists (S k); split; [lia | split; [lia|]].
    rewrite Ck; simpl; rewrite C, app_assoc; reflexivity.
Qed.

(** C2 (as the code has it).  In live mode each attempt of
    [publishWithRetry] calls [postToAllPlatforms] in full: the attempts,
    between one and [maxRetries = 3], each invoke the Facebook client and
    then the Instagram client, so a platform that succeeded in an earlier
    attempt is invoked again in every later one. *)
Theorem retry_invokes_all_platforms e w :
  env_mock e = false ->
  exists k, (1 <= k <= 3)%nat /\
    calls (snd (publishWithRetry (publishRound e) w)) =
      calls w ++ concat (repeat [CallPlatform Facebook; CallPlatform Instagram] k).
Proof.
  intro Hm.
  assert (HR : forall a w, exists out, fst (publishRound e a w) = Ok out /\
            calls (snd (publishRound e a w)) =
              calls w ++ [CallPlatform Facebook; CallPlatform Instagram]).
  { intros a w'; unfold publishRound; rewrite Hm; apply postToAllPlatforms_calls. }
  destruct (retryLoop_calls _ _ HR maxRetries 0 [] w) as (k & H1 & H2 & H3).
  exists k; split; [unfold maxRetries in *; lia | exact H3].
Qed.

Lemma retry_invokes_all_platforms_witness :
  exists k, (1 <= k <= 3)%nat /\
    calls (snd (publishWithRetry (publishRound (Fixtures.env_with Fixtures.api_instagram_down false))
                  Fixtures.w0)) =
      calls Fixtures.w0 ++ concat (repeat [CallPlatform Facebook; CallPlatform Instagram] k).
Proof.
  exact (retry_invokes_all_platforms (Fixtures.env_with Fixtures.api_instagram_down false)
           Fixtures.w0 eq_refl).
Defined.

(** C2 fails as stated: Facebook succeeds in the first attempt while
    Instagram fails, and the Facebook client is still invoked in each of
    the three attempts. *)
Lemma retry_only_failed_counterexample :
  let e := Fixtures.env_with Fixtures.api_instagram_down false in
  fst (publishRound e 0 Fixtures.w0) =
    Ok [succeeded Facebook; failed Instagram "Instagram requires an image for posts"%string] /\
  platform_calls Facebook (calls (snd (publishWithRetry (publishRound e) Fixtures.w0))) = 3%nat.
Proof. split; vm_compute; reflexivity. Qed.

(* ------------------------------------------------------------------ *)
(** ** Duplicate content (C3) *)

Lemma createAndPublishPost_duplicate e item c w :
  env_content e item = Ok c ->
  env_dbFail e DbIsDup = None ->
  existsb (fun r => String.eqb (pr_contentHash r)
                      (env_hash e (String.append (shortCaption c) (longDescription c))))
          (posts (db w)) = true ->
  createAndPublishPost e item w = (Ok failRes, set_stats incr_duplicatesSkipped w).
Proof.
  intros C D H.
  unfold createAndPublishPost, phase1, try_, bind, liftR; rewrite C.
  unfold isContentDuplicate, dbOp; rewrite D; simpl; rewrite H; reflexivity.
Qed.

(** C3 (as the code has it).  A cycle whose generated content has the
    hash of an existing [posts] row increments [duplicatesSkipped] by
    one, adds no [posts] row and no [processed_news] row, and, since
    [createAndPublishPost] returns [success: false], also increments
    [failedPosts] by one ([successfulPosts] unchanged). *)
Theorem duplicate_content_cycle e w n w1 item w2 c :
  isRunning (stats w) = false ->
  getTodayPostCount e (cycle_start w) = (Ok n, w1) ->
  (n < env_maxPostsPerDay e)%nat ->
  getUniqueNewsItem e w1 = (Ok (Some item), w2) ->
  env_content e item = Ok c ->
  env_dbFail e DbIsDup = None ->
  existsb (fun r => String.eqb (pr_contentHash r)
                      (env_hash e (String.append (shortCaption c) (longDescription c))))
          (posts (db w)) = true ->
  let w' := snd (runAutomationCycle e w) in
  duplicatesSkipped (stats w') = S (duplicatesSkipped (stats w)) /\
  failedPosts (stats w') = S (failedPosts (stats w)) /\
  successfulPosts (stats w') = successfulPosts (stats w) /\
  posts (db w') = posts (db w) /\
  processed (db w') = processed (db w).
Proof.
  intros R E Hlt U C D H.
  pose proof (getTodayPostCount_keeps_all e (cycle_start w)) as K.
  rewrite E in K; simpl in K; subst w1.
  pose proof (getUniqueNewsItem_keeps_stats e (cycle_start w)) as Ks.
  pose proof (getUniqueNewsItem_keeps_db e (cycle_start w)) as Kd.
  rewrite U in Ks, Kd; simpl in Ks, Kd.
  assert (H2 : existsb (fun r => String.eqb (pr_contentHash r)
                 (env_hash e (String.append (shortCaption c) (longDescription c))))
                 (posts (db w2)) = true) by (rewrite Kd; exact H).
  unfold runAutomationCycle; rewrite R.
  unfold cycle_rest, finally_, try_, cycle_body, bind; rewrite E.
  apply Nat.leb_gt in Hlt; rewrite Hlt, U.
  rewrite (createAndPublishPost_duplicate e item c w2 C D H2); simpl.
  rewrite Ks, Kd; simpl; auto.
Qed.

Lemma duplicate_content_cycle_witness :
  let e := Fixtures.env_with Fixtures.api_all_fail true in
  duplicatesSkipped (stats (snd (runAutomationCycle e Fixtures.w_dup))) = 1%nat.
Proof.
  intro e.
  refine (proj1 (duplicate_content_cycle e Fixtures.w_dup 1%nat _ Fixtures.item_a _ Fixtures.c0
                   eq_refl _ _ _ eq_refl eq_refl _));
    [reflexivity | vm_compute; lia | reflexivity | reflexivity].
Defined.

(** C3 fails as stated: the duplicate cycle also increments
    [failedPosts]. *)
Lemma duplicate_not_failure_counterexample :
  let e := Fixtures.env_with Fixtures.api_all_fail true in
  let w' := snd (runAutomationCycle e Fixtures.w_dup) in
  duplicatesSkipped (stats w') = 1%nat /\
  failedPosts (stats w') = 1%nat /\ failedPosts (stats Fixtures.w_dup) = 0%nat /\
  posts (db w') = posts (db Fixtures.w_dup) /\ processed (db w') = [].
Proof. vm_compute; repeat split. Qed.

(* ================================================================== *)
(** * Further properties of the database, the platform clients, the
      retry loop, the cycle and the health check *)

(* ------------------------------------------------------------------ *)
(** ** Invariants of whole computations *)

Create HintDb pres.

Section PresLemmas.
Variable P : World -> Prop.

Lemma pres_ret {A} (a : A) : Preserves P (ret a).
Proof. intros w H; exact H. Qed.

Lemma pres_throw {A} m : Preserves P (@throw A m).
Proof. intros w H; exact H. Qed.

Lemma pres_liftR {A} (r : Result A) : Preserves P (liftR r).
Proof. intros w H; exact H. Qed.

Lemma pres_get : Preserves P get.
Proof. intros w H; exact H. Qed.

Lemma pres_bind {A B} (c : M A) (k : A -> M B) :
  Preserves P c -> (forall a, Preserves P (k a)) -> Preserves P (bind c k).
Proof.
  intros Hc Hk w H; unfold bind.
  specialize (Hc w H); destruct (c w) as [[a|m] w']; simpl in *; [apply Hk|]; exact Hc.
Qed.

Lemma pres_try {A} (c : M A) (h : string -> M A) :
  Preserves P c -> (forall m, Preserves P (h m)) -> Preserves P (try_ c h).
Proof.
  intros Hc Hh w H; unfold try_.
  specialize (Hc w H); destruct (c w) as [[a|m] w']; simpl in *; [|apply Hh]; exact Hc.
Qed.

Lemma pres_finally {A} (c : M A) (g : M unit) :
  Preserves P c -> Preserves P g -> Preserves P (finally_ c g).
Proof.
  intros Hc Hg w H; unfold finally_.
  specialize (Hc w H); destruct (c w) as [r w'].
  specialize (Hg w' Hc); destruct (g w') as [[u|m] w'']; exact Hg.
Qed.

Lemma pres_dbOp e {A} op (k : M A) : Preserves P k -> Preserves P (dbOp e op k).
Proof.
  intros Hk w H; unfold dbOp; destruct (env_dbFail e op); [exact H | apply Hk, H].
Qed.

End PresLemmas.

Lemma pres_wf_of_keeps {A} (c : M A) : Keeps db c -> Preserves wf_world c.
Proof. intros K w H; unfold wf_world; rewrite K; exact H. Qed.

Lemma nodup_snoc {X} (l : list X) x : NoDup l -> ~ In x l -> NoDup (l ++ [x]).
Proof.
  induction l as [|a l IH]; simpl; intros Hd Hn.
  - constructor; [intros []|constructor].
  - inversion Hd as [|? ? Ha Hl]; subst; constructor.
    + rewrite in_app_iff; simpl; intuition.
    + apply IH; intuition.
Qed.

Lemma existsb_false_not_in {X} (f : X -> string) (l : list X) s :
  existsb (fun r => String.eqb (f r) s) l = false -> ~ In s (map f l).
Proof.
  intros E Hin; apply in_map_iff in Hin; destruct Hin as (r & Er & Hr).
  assert (existsb (fun r => String.eqb (f r) s) l = true)
    by (apply existsb_exists; exists r; split; [exact Hr | apply String.eqb_eq, Er]).
  congruence.
Qed.

Lemma insertPost_wf e t c u p h : Preserves wf_world (insertPost e t c u p h).
Proof.
  intros w H; unfold insertPost, dbOp.
  destruct (env_dbFail e DbInsert); [exact H|].
  destruct (existsb _ _) eqn:E; [exact H|].
  unfold wf_world, db_wf in *; simpl.
  destruct H as (H1 & H2 & H3 & H4).
  rewrite !map_app; simpl.
  split; [apply nodup_snoc; [exact H1 | apply (existsb_false_not_in pr_contentHash), E]|].
  split; [apply nodup_snoc; [exact H2|]|].
  { intro Hin; apply in_map_iff in Hin; destruct Hin as (r & Er & Hr).
    rewrite Forall_forall in H3; specialize (H3 r Hr); lia. }
  split; [|exact H4].
  apply Forall_app; split.
  - eapply Forall_impl; [|exact H3]; simpl; intros; lia.
  - constructor; [simpl; lia | constructor].
Qed.

Lemma updatePostStatus_wf e id st err : Preserves wf_world (updatePostStatus e id st err).
Proof.
  intros w H; unfold updatePostStatus, dbOp, modify.
  destruct (env_dbFail e DbUpdate); [exact H|].
  unfold wf_world, db_wf in *; simpl.
  destruct H as (H1 & H2 & H3 & H4).
  rewrite !map_map.
  split; [erewrite map_ext; [exact H1|]; intro r; destruct (Nat.eqb _ _); reflexivity|].
  split; [erewrite map_ext; [exact H2|]; intro r; destruct (Nat.eqb _ _); reflexivity|].
  split; [|exact H4].
  apply Forall_map; eapply Forall_impl; [|exact H3]; simpl.
  intros r Hr; destruct (Nat.eqb _ _); exact Hr.
Qed.

Lemma markNewsAsProcessed_wf e u t : Preserves wf_world (markNewsAsProcessed e u t).
Proof.
  intros w H; unfold markNewsAsProcessed, dbOp, modify.
  destruct (env_dbFail e DbMark); [exact H|].
  unfold wf_world, db_wf in *; simpl.
  destruct H as (H1 & H2 & H3 & H4).
  split; [exact H1 | split; [exact H2 | split; [exact H3|]]].
  unfold insert_or_ignore; destruct (existsb _ _) eqn:E; [exact H4|].
  rewrite map_app; apply nodup_snoc; [exact H4 | apply (existsb_false_not_in nr_url), E].
Qed.

#[export] Hint Resolve insertPost_wf updatePostStatus_wf markNewsAsProcessed_wf : pres.

Ltac pres_tac :=
  repeat match goal with
  | |- Preserves _ _ => solve [eauto with pres]
  | |- Preserves wf_world _ => apply pres_wf_of_keeps; solve [eauto with keeps]
  | |- Preserves _ (bind _ _) => apply pres_bind; [ | intro ]
  | |- Preserves _ (try_ _ _) => apply pres_try; [ | intro ]
  | |- Preserves _ (finally_ _ _) => apply pres_finally
  | |- Preserves _ (ret _) => apply pres_ret
  | |- Preserves _ (throw _) => apply pres_throw
  | |- Preserves _ (liftR _) => apply pres_liftR
  | |- Preserves _ get => apply pres_get
  | |- Preserves _ (dbOp _ _ _) => apply pres_dbOp
  | |- Preserves _ (if ?b then _ else _) => destruct b
  | |- Preserves _ (match ?x with _ => _ end) => destruct x
  end.

Lemma createAndPublishPost_wf e item : Preserves wf_world (createAndPublishPost e item).
Proof.
  unfold createAndPublishPost, phase1, phase2.
  pres_tac; apply pres_wf_of_keeps; intro w; reflexivity.
Qed.

#[export] Hint Resolve createAndPublishPost_wf : pres.

Lemma cycle_rest_wf e : Preserves wf_world (cycle_rest e).
Proof.
  unfold cycle_rest, cycle_body.
  pres_tac; apply pres_wf_of_keeps; intro w; reflexivity.
Qed.

(** X1.  Every cycle keeps the constraints of the two tables: distinct
    [content_hash] values, distinct post ids below the AUTOINCREMENT
    counter, distinct [news_url] values in [processed_news]. *)
Theorem cycle_keeps_tables_wf e w :
  db_wf (db w) -> db_wf (db (snd (runAutomationCycle e w))).
Proof.
  intro H; unfold runAutomationCycle.
  destruct (isRunning (stats w)); [exact H|].
  apply (cycle_rest_wf e (cycle_start w)); exact H.
Qed.

Lemma cycle_keeps_tables_wf_witness :
  db_wf (db Fixtures.w_dup) /\
  db_wf (db (snd (runAutomationCycle (Fixtures.env_with Fixtures.api_all_fail false) Fixtures.w_dup))).
Proof.
  assert (H : db_wf (db Fixtures.w_dup)).
  { unfold db_wf; simpl; split; [repeat constructor; intros []|].
    split; [repeat constructor; intros []|].
    split; [repeat constructor; simpl; lia | constructor]. }
  split; [exact H | apply cycle_keeps_tables_wf; exact H].
Defined.

(* ------------------------------------------------------------------ *)
(** ** Round trips through the [Database] class *)

Lemma find_skip_app (p : PostRow -> bool) l l' :
  (forall r, In r l -> p r = false) -> find p (l ++ l') = find p l'.
Proof.
  induction l as [|r l IH]; simpl; intro H; [reflexivity|].
  rewrite (H r (or_introl eq_refl)); apply IH; auto.
Qed.

Lemma insertPost_ok e t c u p h w id w' :
  insertPost e t c u p h w = (Ok id, w') ->
  env_dbFail e DbInsert = None /\
  existsb (fun r => String.eqb (pr_contentHash r) h) (posts (db w)) = false /\
  id = nextPostId (db w) /\
  w' = set_db (fun d => mkDb (posts d ++ [mkPostRow id t c u p (now w) Pending None h])
                             (S id) (processed d)) w.
Proof.
  unfold insertPost, dbOp; destruct (env_dbFail e DbInsert); [discriminate|].
  destruct (existsb _ _); [discriminate|].
  intro H; injection H as <- <-; auto.
Qed.

(** X2.  Once [insertPost] has resolved with id [id], the content hash
    is reported as a duplicate, and on well-formed tables the row [id]
    is the new row, in status ['pending']. *)
Theorem insert_then_duplicate e t c u p h w id w' :
  insertPost e t c u p h w = (Ok id, w') ->
  env_dbFail e DbIsDup = None ->
  isContentDuplicate e h w' = (Ok true, w') /\
  (db_wf (db w) -> post_status id w' = Some Pending).
Proof.
  intros Hi Hd; destruct (insertPost_ok e t c u p h w id w' Hi) as (_ & _ & Eid & ->).
  split.
  - unfold isContentDuplicate, dbOp; rewrite Hd; simpl.
    rewrite existsb_app; simpl; rewrite String.eqb_refl, orb_true_r; reflexivity.
  - intros (_ & _ & H3 & _); unfold post_status; simpl.
    rewrite find_skip_app; [simpl; rewrite Nat.eqb_refl; reflexivity|].
    intros r Hr; rewrite Forall_forall in H3; specialize (H3 r Hr).
    apply Nat.eqb_neq; lia.
Qed.

Lemma insert_then_duplicate_witness :
  let e := Fixtures.env_with Fixtures.api_all_fail true in
  let w' := snd (insertPost e "X" "long" "a" "both" "caplong" Fixtures.w0) in
  isContentDuplicate e "caplong" w' = (Ok true, w') /\
  (db_wf (db Fixtures.w0) -> post_status 1 w' = Some Pending).
Proof.
  exact (insert_then_duplicate (Fixtures.env_with Fixtures.api_all_fail true)
           "X" "long" "a" "both" "caplong" Fixtures.w0 1 _ eq_refl eq_refl).
Defined.

(** X3.  A second [insertPost] with a content hash already inserted is
    rejected by the UNIQUE index, whatever its other columns, and leaves
    the world as it was. *)
Theorem insert_same_hash_rejected e t c u p h t' c' u' p' w id w' :
  insertPost e t c u p h w = (Ok id, w') ->
  insertPost e t' c' u' p' h w' =
    (Throw "SQLITE_CONSTRAINT: UNIQUE constraint failed: posts.content_hash", w').
Proof.
  intro Hi; destruct (insertPost_ok e t c u p h w id w' Hi) as (Hf & _ & _ & Hw).
  unfold insertPost at 1, dbOp; rewrite Hf.
  replace (existsb _ (posts (db w'))) with true; [reflexivity|].
  rewrite Hw; simpl; rewrite existsb_app; simpl; rewrite String.eqb_refl, orb_true_r; reflexivity.
Qed.

Lemma insert_same_hash_rejected_witness :
  let e := Fixtures.env_with Fixtures.api_all_fail true in
  let w' := snd (insertPost e "X" "long" "a" "both" "caplong" Fixtures.w0) in
  insertPost e "Y" "other" "b" "both" "caplong" w' =
    (Throw "SQLITE_CONSTRAINT: UNIQUE constraint failed: posts.content_hash", w').
Proof.
  exact (insert_same_hash_rejected (Fixtures.env_with Fixtures.api_all_fail true)
           "X" "long" "a" "both" "caplong" "Y" "other" "b" "both" Fixtures.w0 1 _ eq_refl).
Defined.

(** X4.  After [markNewsAsProcessed url] has resolved, [isNewsProcessed]
    answers [true] for [url], and still answers [true] for every URL
    it answered [true] for before. *)
Theorem mark_then_processed e u t w w' :
  markNewsAsProcessed e u t w = (Ok tt, w') ->
  env_dbFail e DbIsProcessed = None ->
  isNewsProcessed e u w' = (Ok true, w') /\
  (forall u', isNewsProcessed e u' w = (Ok true, w) -> isNewsProcessed e u' w' = (Ok true, w')).
Proof.
  unfold markNewsAsProcessed, dbOp, modify.
  destruct (env_dbFail e DbMark); [discriminate|].
  intros H Hp; injection H as <-.
  unfold isNewsProcessed, dbOp; rewrite Hp; simpl.
  split; [rewrite insert_or_ignore_has; reflexivity|].
  intros u' H; injection H as H.
  unfold insert_or_ignore.
  destruct (existsb (fun r => String.eqb (nr_url r) u) (processed (db w)));
    [rewrite H; reflexivity|].
  rewrite existsb_app, H; reflexivity.
Qed.

Lemma mark_then_processed_witness :
  let e := Fixtures.env_with Fixtures.api_all_fail true in
  let w' := snd (markNewsAsProcessed e "b" "Y" Fixtures.w_seen) in
  isNewsProcessed e "b" w' = (Ok true, w') /\
  (forall u', isNewsProcessed e u' Fixtures.w_seen = (Ok true, Fixtures.w_seen) ->
     isNewsProcessed e u' w' = (Ok true, w')).
Proof.
  exact (mark_then_processed (Fixtures.env_with Fixtures.api_all_fail true)
           "b" "Y" Fixtures.w_seen _ eq_refl eq_refl).
Defined.

Lemma find_update_map l id st err id' :
  find (fun r => Nat.eqb (pr_id r) id')
    (map (fun r => if Nat.eqb (pr_id r) id
                   then mkPostRow (pr_id r) (pr_title r) (pr_content r)
                          (pr_newsUrl r) (pr_platform r) (pr_postedAt r)
                          st err (pr_contentHash r)
                   else r) l) =
  option_map (fun r => if Nat.eqb (pr_id r) id
                       then mkPostRow (pr_id r) (pr_title r) (pr_content r)
                              (pr_newsUrl r) (pr_platform r) (pr_postedAt r)
                              st err (pr_contentHash r)
                       else r)
    (find (fun r => Nat.eqb (pr_id r) id') l).
Proof.
  induction l as [|r l IH]; simpl; [reflexivity|].
  destruct (Nat.eqb (pr_id r) id) eqn:E1; simpl;
    destruct (Nat.eqb (pr_id r) id') eqn:E2; simpl; rewrite ?E1; auto.
Qed.

(** X5.  [updatePostStatus id status] sets the status of the row [id]
    (nothing when there is no such row) and leaves the status of every
    other row and the number of rows unchanged. *)
Theorem update_status_lookup e id st err w :
  env_dbFail e DbUpdate = None ->
  length (posts (db (snd (updatePostStatus e id st err w)))) = length (posts (db w)) /\
  forall id', post_status id' (snd (updatePostStatus e id st err w)) =
    if Nat.eqb id' id then option_map (fun _ => st) (post_status id w)
    else post_status id' w.
Proof.
  intro Hu; unfold updatePostStatus, dbOp, modify; rewrite Hu; simpl.
  split; [apply length_map|].
  intro id'; unfold post_status; simpl; rewrite find_update_map.
  destruct (find (fun r => Nat.eqb (pr_id r) id') (posts (db w))) as [r|] eqn:F.
  - pose proof F as F'; apply find_some in F'; destruct F' as [_ F'].
    apply Nat.eqb_eq in F'; subst id'; simpl.
    destruct (Nat.eqb (pr_id r) id) eqn:E; simpl; [|reflexivity].
    apply Nat.eqb_eq in E; subst id; rewrite F; reflexivity.
  - destruct (Nat.eqb id' id) eqn:E; [apply Nat.eqb_eq in E; subst id'; rewrite F|]; reflexivity.
Qed.

Lemma update_status_lookup_witness :
  let e := Fixtures.env_with Fixtures.api_all_fail true in
  length (posts (db (snd (updatePostStatus e 1 Published None Fixtures.w_dup)))) =
    length (posts (db Fixtures.w_dup)) /\
  forall id', post_status id' (snd (updatePostStatus e 1 Published None Fixtures.w_dup)) =
    if Nat.eqb id' 1 then option_map (fun _ => Published) (post_status 1 Fixtures.w_dup)
    else post_status id' Fixtures.w_dup.
Proof.
  exact (update_status_lookup (Fixtures.env_with Fixtures.api_all_fail true)
           1 Published None Fixtures.w_dup eq_refl).
Defined.

(** X6.  A post inserted now is counted by [getTodayPostCount] (posts
    of the last 24 hours): the count grows by exactly one. *)
Theorem today_count_after_insert e t c u p h w n id w' :
  getTodayPostCount e w = (Ok n, w) ->
  insertPost e t c u p h w = (Ok id, w') ->
  getTodayPostCount e w' = (Ok (S n), w').
Proof.
  intros Hc Hi; destruct (insertPost_ok e t c u p h w id w' Hi) as (_ & _ & _ & ->).
  unfold getTodayPostCount, getRecentPosts, bind, dbOp, ret in *.
  destruct (env_dbFail e DbRecent); [discriminate|].
  injection Hc as Hc.
  cbn [posts db set_db now]; rewrite filter_app, length_app; simpl; rewrite Hc.
  destruct (Z.ltb (now w - 86400000) (now w)) eqn:L;
    [simpl; rewrite Nat.add_1_r; reflexivity | apply Z.ltb_ge in L; lia].
Qed.

Lemma today_count_after_insert_witness :
  let e := Fixtures.env_with Fixtures.api_all_fail true in
  getTodayPostCount e (snd (insertPost e "Y" "other" "b" "both" "h2" Fixtures.w_inserted)) =
    (Ok 2%nat, snd (insertPost e "Y" "other" "b" "both" "h2" Fixtures.w_inserted)).
Proof.
  apply (today_count_after_insert _ "Y" "other" "b" "both" "h2" Fixtures.w_inserted 1 2);
    vm_compute; reflexivity.
Defined.

(** X7.  When today's post count has reached [maxPostsPerDay], the cycle
    only records the run: no table, rate-limit clock or collaborator is
    touched, no time passes, and neither [successfulPosts] nor
    [failedPosts] changes. *)
Theorem quota_reached_no_effect e w n :
  isRunning (stats w) = false ->
  fst (getTodayPostCount e (cycle_start w)) = Ok n ->
  (env_maxPostsPerDay e <= n)%nat ->
  let w' := snd (runAutomationCycle e w) in
  db w' = db w /\ social w' = social w /\ calls w' = calls w /\ now w' = now w /\
  totalRuns (stats w') = S (totalRuns (stats w)) /\
  successfulPosts (stats w') = successfulPosts (stats w) /\
  failedPosts (stats w') = failedPosts (stats w) /\
  duplicatesSkipped (stats w') = duplicatesSkipped (stats w) /\
  isRunning (stats w') = false.
Proof.
  intros R Hc Hq.
  pose proof (getTodayPostCount_keeps_all e (cycle_start w)) as K; simpl in K.
  cbv zeta; unfold runAutomationCycle; rewrite R.
  unfold cycle_rest, finally_, try_, cycle_body, bind.
  destruct (getTodayPostCount e (cycle_start w)) as [r w1]; simpl in Hc, K; subst r w1.
  apply Nat.leb_le in Hq; rewrite Hq; simpl.
  repeat split; reflexivity.
Qed.

Lemma quota_reached_no_effect_witness :
  let e := mkEnv 1 (fun _ => Ok Fixtures.item_a) (fun _ => Ok Fixtures.c0) (fun s => s)
                 (fun _ => Ok tt) (fun _ => Ok "img.png"%string) false
                 Fixtures.api_all_fail (fun _ => None) in
  let w' := snd (runAutomationCycle e Fixtures.w_inserted) in
  db w' = db Fixtures.w_inserted /\ social w' = social Fixtures.w_inserted /\
  calls w' = calls Fixtures.w_inserted /\ now w' = now Fixtures.w_inserted /\
  totalRuns (stats w') = S (totalRuns (stats Fixtures.w_inserted)) /\
  successfulPosts (stats w') = successfulPosts (stats Fixtures.w_inserted) /\
  failedPosts (stats w') = failedPosts (stats Fixtures.w_inserted) /\
  duplicatesSkipped (stats w') = duplicatesSkipped (stats Fixtures.w_inserted) /\
  isRunning (stats w') = false.
Proof.
  apply (quota_reached_no_effect _ Fixtures.w_inserted 1); vm_compute; [reflexivity | reflexivity | lia].
Defined.

(* ------------------------------------------------------------------ *)
(** ** Platform clients and the retry loop *)

(** X8.  Two successful posts to the same platform are at least
    [minInterval] (one hour) apart: a post that succeeds with a
    non-negative HTTP latency either is the first one recorded
    ([lastPostTime] still [0]) or is recorded at least one hour after
    the previous one. *)
Theorem successive_posts_spaced e p rm a w o w' :
  postToPlatform e p rm a w = (Ok o, w') ->
  o_success o = true ->
  0 <= fst (env_api e p a) ->
  lastPostTime (social w) p = 0 \/
  minInterval <= lastPostTime (social w') p - lastPostTime (social w) p.
Proof.
  unfold postToPlatform, bind, logCall, modify, get, ret, delay.
  cbn [fst snd social set_calls now].
  destruct (canPost (social w) p (now w)) eqn:C; cbn [negb].
  - destruct (env_api e p a) as [lat [r|m]]; cbn [fst]; intros H Hs Hl.
    + injection H as <- <-.
      unfold canPost in C; apply Z.leb_le in C.
      destruct (Z.eqb (lastPostTime (social w) p) 0) eqn:Z0; [left; apply Z.eqb_eq, Z0|right].
      destruct p; simpl in *; lia.
    + injection H as <- <-; discriminate Hs.
  - intro H; injection H as <- <-; discriminate.
Qed.

Lemma successive_posts_spaced_witness :
  let e := Fixtures.env_with Fixtures.api_instagram_down false in
  let w := mkWorld fresh_stats (mkDb [] 1 []) (mkSocial 5000000 0) 10000000 [] in
  lastPostTime (social w) Facebook = 0 \/
  minInterval <= lastPostTime (social (snd (postToFacebook e 0 w))) Facebook -
                 lastPostTime (social w) Facebook.
Proof.
  intros e w.
  apply (successive_posts_spaced e Facebook "Rate limit: Too soon since last Facebook post"%string
           0 w (succeeded Facebook)); vm_compute; [reflexivity | reflexivity | discriminate].
Defined.

Lemma no_failure_of_filter (l : list Outcome) :
  Nat.eqb (length (filter (fun o => negb (o_success o)) l)) 0 = true ->
  existsb (fun o => negb (o_success o)) l = false.
Proof.
  intro H; apply Nat.eqb_eq in H.
  destruct (existsb _ l) eqn:E; [|reflexivity].
  apply existsb_exists in E; destruct E as (x & Hx & Fx).
  assert (In x (filter (fun o => negb (o_success o)) l)) by (apply filter_In; auto).
  destruct (filter _ l); [contradiction | discriminate].
Qed.

Lemma retryLoop_exhausted round L :
  (forall a w, exists out, fst (round a w) = Ok out /\ calls (snd (round a w)) = calls w ++ L) ->
  forall fuel a res w out w',
  (a + fuel = maxRetries)%nat -> fuel <> 0%nat ->
  retryLoop round fuel a res w = (Ok out, w') ->
  existsb (fun o => negb (o_success o)) out = true ->
  calls w' = calls w ++ concat (repeat L fuel).
Proof.
  intros HR fuel; induction fuel as [|fuel IH]; intros a res w out w' Ha Hf; [congruence|].
  destruct (HR a w) as (out1 & E & C).
  simpl; unfold bind at 1, try_, bind at 1.
  destruct (round a w) as [r w1]; simpl in E, C; subst r; simpl.
  destruct (Nat.eqb _ 0) eqn:N.
  - intro H; injection H as <- <-; rewrite no_failure_of_filter by exact N; discriminate.
  - destruct (Nat.ltb a 2) eqn:Lt.
    + unfold bind, delay, modify; intros H Hx.
      apply Nat.ltb_lt in Lt; unfold maxRetries in *.
      rewrite (IH (S a) out1 _ out w' ltac:(lia) ltac:(lia) H Hx); simpl.
      rewrite C, app_assoc; reflexivity.
    + apply Nat.ltb_ge in Lt; unfold maxRetries in *.
      intros H _; injection H as <- <-.
      assert (fuel = 0%nat) by lia; subst fuel; simpl; rewrite app_nil_r; exact C.
Qed.

Lemma publishRound_live_calls e :
  env_mock e = false ->
  forall a w, exists out, fst (publishRound e a w) = Ok out /\
    calls (snd (publishRound e a w)) = calls w ++ [CallPlatform Facebook; CallPlatform Instagram].
Proof. intros Hm a w; unfold publishRound; rewrite Hm; apply postToAllPlatforms_calls. Qed.

(** X9.  In live mode, [publishWithRetry] gives up only after
    [maxRetries]: when the outcome list it returns still contains a
    failure, all three attempts have been made, each calling the
    Facebook and then the Instagram client.  When the first attempt has
    no failure, it is the only one and its outcomes are returned. *)
Theorem retry_exhausted_three_attempts e w outs w' :
  env_mock e = false ->
  publishWithRetry (publishRound e) w = (Ok outs, w') ->
  (existsb (fun o => negb (o_success o)) outs = true ->
   calls w' = calls w ++ concat (repeat [CallPlatform Facebook; CallPlatform Instagram] 3)) /\
  (existsb (fun o => negb (o_success o)) (match fst (publishRound e 0 w) with
                                          | Ok l => l | Throw _ => [] end) = false ->
   outs = match fst (publishRound e 0 w) with Ok l => l | Throw _ => [] end /\
   calls w' = calls w ++ [CallPlatform Facebook; CallPlatform Instagram]).
Proof.
  intros Hm Hp; split.
  - intro Hx; exact (retryLoop_exhausted _ _ (publishRound_live_calls e Hm) maxRetries 0 [] w
                       outs w' eq_refl ltac:(discriminate) Hp Hx).
  - destruct (publishRound_live_calls e Hm 0 w) as (out1 & E & C).
    rewrite E; intro Hx.
    revert Hp; unfold publishWithRetry; simpl; unfold bind at 1, try_, bind at 1.
    destruct (publishRound e 0 w) as [r w1]; simpl in E, C; subst r; simpl.
    replace (Nat.eqb (length (filter (fun o => negb (o_success o)) out1)) 0) with true.
    + intro H; injection H as <- <-; auto.
    + symmetry; apply Nat.eqb_eq.
      destruct (filter _ out1) as [|x l] eqn:F; [reflexivity|].
      assert (Hin : In x (filter (fun o => negb (o_success o)) out1)) by (rewrite F; left; reflexivity).
      apply filter_In in Hin; destruct Hin as [Hin Hn].
      assert (existsb (fun o => negb (o_success o)) out1 = true)
        by (apply existsb_exists; exists x; auto).
      congruence.
Qed.

Lemma retry_exhausted_three_attempts_witness :
  let e := Fixtures.env_with Fixtures.api_all_fail false in
  let r := publishWithRetry (publishRound e) Fixtures.w0 in
  (existsb (fun o => negb (o_success o)) (match fst r with Ok l => l | Throw _ => [] end) = true ->
   calls (snd r) = calls Fixtures.w0 ++
     concat (repeat [CallPlatform Facebook; CallPlatform Instagram] 3)) /\
  (existsb (fun o => negb (o_success o)) (match fst (publishRound e 0 Fixtures.w0) with
                                          | Ok l => l | Throw _ => [] end) = false ->
   (match fst r with Ok l => l | Throw _ => [] end) =
     match fst (publishRound e 0 Fixtures.w0) with Ok l => l | Throw _ => [] end /\
   calls (snd r) = calls Fixtures.w0 ++ [CallPlatform Facebook; CallPlatform Instagram]).
Proof.
  apply (retry_exhausted_three_attempts _ Fixtures.w0); vm_compute; reflexivity.
Defined.

(* ------------------------------------------------------------------ *)
(** ** [healthCheck] and [shutdown] *)

(** X10.  [healthCheck] never throws and changes nothing; it reports the
    service healthy exactly when it collected no error message.  Without
    [FACEBOOK_ACCESS_TOKEN] the social-media check passes. *)
Theorem health_check_consistent e he w :
  exists h, healthCheck e he w = (Ok h, w) /\
    (isHealthy h = true <-> h_errors h = []) /\
    (he_tokenConfigured he = false -> h_socialMedia h = true).
Proof.
  unfold healthCheck, bind, try_, getRecentPosts, dbOp, liftR, ret.
  destruct (env_dbFail e DbRecent); destruct (he_news he);
    destruct (he_tokenConfigured he); destruct (he_fbCheck he); destruct (he_igCheck he);
    simpl; eexists; (split; [reflexivity|]); simpl;
    (split; [split; intro H; first [reflexivity | discriminate H] | intro H; first [reflexivity | discriminate H]]).
Qed.

(** X11.  [shutdown()] while a cycle is in flight clears [isRunning]
    without waiting for that cycle, so the next trigger starts a second
    one: two cycles are in flight and the single-flight invariant no
    longer holds. *)
Theorem shutdown_reopens_guard s :
  inflight s = 1%nat ->
  inflight (trigger (shutdown_sys s)) = 2%nat /\ ~ sys_inv (trigger (shutdown_sys s)).
Proof.
  intro H; unfold trigger, shutdown_sys; simpl; rewrite H.
  split; [reflexivity|].
  unfold sys_inv; simpl; lia.
Qed.

Lemma shutdown_reopens_guard_witness :
  let s := trigger (mkSys Fixtures.w0 0) in
  reachable s /\ inflight s = 1%nat /\
  inflight (trigger (shutdown_sys s)) = 2%nat /\ ~ sys_inv (trigger (shutdown_sys s)).
Proof.
  assert (R : reachable (trigger (mkSys Fixtures.w0 0))).
  { apply (reach_step (mkSys Fixtures.w0 0)); [apply reach_init; reflexivity | apply step_trigger]. }
  split; [exact R | split; [reflexivity | apply shutdown_reopens_guard; reflexivity]].
Defined.

(* ------------------------------------------------------------------ *)
(** ** What [createAndPublishPost] returns *)

Section ReturnsLemmas.
Context {A : Type} (Q : A -> Prop).

Lemma returns_ret (a : A) : Q a -> Returns Q (ret a).
Proof. intros H w; exact H. Qed.

Lemma returns_bind {B} (c : M B) (k : B -> M A) :
  (forall b, Returns Q (k b)) -> Returns Q (bind c k).
Proof.
  intros Hk w; unfold bind; destruct (c w) as [[b|m] w']; [apply Hk | exact I].
Qed.

End ReturnsLemmas.

Lemma phase1_returns e item :
  Returns (fun ph => forall r, ph = PDone r -> r = failRes) (phase1 e item).
Proof.
  unfold phase1; apply returns_bind; intro content; cbv zeta.
  apply returns_bind; intros [].
  - apply returns_bind; intro; apply returns_ret; intros r H; injection H; auto.
  - repeat (apply returns_bind; intro); apply returns_ret; intros r H; discriminate H.
Qed.

Lemma phase2_ok e item id w r w' :
  phase2 e item id w = (Ok r, w') ->
  existsb (fun n => String.eqb (nr_url n) (url item)) (processed (db w')) = true /\
  res_status r <> None /\
  (res_success r = true <-> res_status r = Some Published).
Proof.
  unfold phase2, bind.
  destruct (publishWithRetry (publishRound e) w) as [[outs|m] w1]; [|discriminate].
  unfold updatePostStatus, markNewsAsProcessed, dbOp, modify, ret.
  destruct (env_dbFail e DbUpdate); [discriminate|].
  destruct (env_dbFail e DbMark); [discriminate|].
  intro H; injection H as <- <-; simpl.
  split; [apply insert_or_ignore_has|].
  split; [discriminate|].
  destruct (forallb o_success outs); simpl; split; congruence.
Qed.

(** X12.  When [createAndPublishPost] returns a status (it got past
    [publishWithRetry]), the news URL is in [processed_news], also when
    the status is ['partial_failure'] and the post will never be
    retried; [success] is [true] exactly when the status is
    ['published']. *)
Theorem published_post_marks_news e item w r w' :
  createAndPublishPost e item w = (Ok r, w') ->
  res_status r <> None ->
  existsb (fun n => String.eqb (nr_url n) (url item)) (processed (db w')) = true /\
  (res_success r = true <-> res_status r = Some Published).
Proof.
  unfold createAndPublishPost, bind at 1, try_ at 1.
  pose proof (phase1_returns e item w) as P1.
  destruct (phase1 e item w) as [[ph|m] w1]; simpl in P1.
  - destruct ph as [r0|postId content img].
    + intros H Hs; injection H as <- <-.
      rewrite (P1 r0 eq_refl) in Hs; contradiction Hs; reflexivity.
    + unfold try_ at 1.
      destruct (phase2 e item postId w1) as [[r2|m] w2] eqn:E2.
      * intros H Hs; injection H as <- <-.
        destruct (phase2_ok e item postId w1 r2 w2 E2) as (H1 & _ & H3); auto.
      * intros H Hs.
        assert (P2 : Returns (fun r => r = failRes)
                  ((if Nat.eqb postId 0 then ret tt
                    else updatePostStatus e postId Failed (Some m)) ;; ret failRes))
          by (apply returns_bind; intro; apply returns_ret; reflexivity).
        specialize (P2 w2); rewrite H in P2; simpl in P2; subst r.
        contradiction Hs; reflexivity.
  - intros H Hs; simpl in H; injection H as <- <-; contradiction Hs; reflexivity.
Qed.

Lemma published_post_marks_news_witness :
  let e := Fixtures.env_with Fixtures.api_instagram_down false in
  let w' := snd (createAndPublishPost e Fixtures.item_a Fixtures.w0) in
  existsb (fun n => String.eqb (nr_url n) (url Fixtures.item_a)) (processed (db w')) = true /\
  (res_success (mkPublishResult false (Some PartialFailure)) = true <->
   res_status (mkPublishResult false (Some PartialFailure)) = Some Published).
Proof.
  intros e w'.
  apply (published_post_marks_news e Fixtures.item_a Fixtures.w0); [vm_compute; reflexivity | discriminate].
Defined.

(* ------------------------------------------------------------------ *)
(** ** A cycle in which everything works *)







(* ------------------------------------------------------------------ *)
(** ** The tables are append-only *)

Lemma db_extends_refl d : db_extends d d.
Proof.
  split; [exists []; rewrite app_nil_r; reflexivity|].
  split; [exists []; rewrite app_nil_r; reflexivity | lia].
Qed.

Lemma db_extends_trans d1 d2 d3 : db_extends d1 d2 -> db_extends d2 d3 -> db_extends d1 d3.
Proof.
  intros ((l1 & P1) & (m1 & Q1) & N1) ((l2 & P2) & (m2 & Q2) & N2).
  split; [exists (l1 ++ l2); rewrite P2, P1, app_assoc; reflexivity|].
  split; [exists (m1 ++ m2); rewrite Q2, Q1, app_assoc; reflexivity | lia].
Qed.

Lemma adv_of_keeps {A} (c : M A) : Keeps db c -> Advances c.
Proof. intros K w; rewrite K; apply db_extends_refl. Qed.

Lemma adv_bind {A B} (c : M A) (k : A -> M B) :
  Advances c -> (forall a, Advances (k a)) -> Advances (bind c k).
Proof.
  intros Hc Hk w; unfold bind.
  specialize (Hc w); destruct (c w) as [[a|m] w']; simpl in *; [|exact Hc].
  eapply db_extends_trans; [exact Hc | apply Hk].
Qed.

Lemma adv_try {A} (c : M A) (h : string -> M A) :
  Advances c -> (forall m, Advances (h m)) -> Advances (try_ c h).
Proof.
  intros Hc Hh w; unfold try_.
  specialize (Hc w); destruct (c w) as [[a|m] w']; simpl in *; [exact Hc|].
  eapply db_extends_trans; [exact Hc | apply Hh].
Qed.

Lemma adv_finally {A} (c : M A) (g : M unit) :
  Advances c -> Advances g -> Advances (finally_ c g).
Proof.
  intros Hc Hg w; unfold finally_.
  specialize (Hc w); destruct (c w) as [r w'].
  specialize (Hg w'); destruct (g w') as [[u|m] w'']; simpl in *;
    eapply db_extends_trans; eassumption.
Qed.

Lemma adv_dbOp e {A} op (k : M A) : Advances k -> Advances (dbOp e op k).
Proof.
  intros Hk w; unfold dbOp; destruct (env_dbFail e op); [apply db_extends_refl | apply Hk].
Qed.

Lemma insertPost_adv e t c u p h : Advances (insertPost e t c u p h).
Proof.
  intro w; unfold insertPost, dbOp.
  destruct (env_dbFail e DbInsert); [apply db_extends_refl|].
  destruct (existsb _ _); [apply db_extends_refl|]; unfold db_extends; simpl.
  split; [eexists; rewrite map_app; reflexivity|].
  split; [exists []; rewrite app_nil_r; reflexivity | lia].
Qed.

Lemma updatePostStatus_adv e id st err : Advances (updatePostStatus e id st err).
Proof.
  intro w; unfold updatePostStatus, dbOp, modify.
  destruct (env_dbFail e DbUpdate); [apply db_extends_refl|]; unfold db_extends; simpl.
  split; [exists []; rewrite app_nil_r, map_map; apply map_ext; intro r;
          destruct (Nat.eqb _ _); reflexivity|].
  split; [exists []; rewrite app_nil_r; reflexivity | lia].
Qed.

Lemma markNewsAsProcessed_adv e u t : Advances (markNewsAsProcessed e u t).
Proof.
  intro w; unfold markNewsAsProcessed, dbOp, modify.
  destruct (env_dbFail e DbMark); [apply db_extends_refl|]; unfold db_extends; simpl.
  split; [exists []; rewrite app_nil_r; reflexivity|].
  split; [|lia].
  unfold insert_or_ignore; destruct (existsb _ _);
    [exists []; rewrite app_nil_r; reflexivity | eexists; reflexivity].
Qed.

Create HintDb adv.
#[export] Hint Resolve insertPost_adv updatePostStatus_adv markNewsAsProcessed_adv : adv.

Ltac adv_tac :=
  repeat match goal with
  | |- Advances _ => solve [eauto with adv]
  | |- Advances _ => apply adv_of_keeps; solve [eauto with keeps]
  | |- Advances (bind _ _) => apply adv_bind; [ | intro ]
  | |- Advances (try_ _ _) => apply adv_try; [ | intro ]
  | |- Advances (finally_ _ _) => apply adv_finally
  | |- Advances (dbOp _ _ _) => apply adv_dbOp
  | |- Advances (if ?b then _ else _) => destruct b
  | |- Advances (match ?x with _ => _ end) => destruct x
  | |- Advances _ => apply adv_of_keeps; intro; reflexivity
  end.

Lemma createAndPublishPost_adv e item : Advances (createAndPublishPost e item).
Proof. unfold createAndPublishPost, phase1, phase2; adv_tac. Qed.

#[export] Hint Resolve createAndPublishPost_adv : adv.

(** X14.  A cycle never deletes a row of either table and never rewrites
    a [posts] column other than [status] and [error_message]: the old
    rows come first, unchanged in those columns, possibly followed by new
    ones, and the id counter never goes back. *)
Theorem cycle_append_only e w : db_extends (db w) (db (snd (runAutomationCycle e w))).
Proof.
  unfold runAutomationCycle; destruct (isRunning (stats w)); [apply db_extends_refl|].
  assert (H : Advances (cycle_rest e)) by (unfold cycle_rest, cycle_body; adv_tac).
  apply (H (cycle_start w)).
Qed.

(* ------------------------------------------------------------------ *)
(** ** At most one new row per cycle *)

Section GrowsLemmas.
Variable f : World -> nat.

Lemma grows_keeps {A} n (c : M A) : Keeps f c -> Grows f n c.
Proof. intros K w; rewrite K; lia. Qed.

Lemma grows_bind_keeps {A B} n (c : M A) (k : A -> M B) :
  Keeps f c -> (forall a, Grows f n (k a)) -> Grows f n (bind c k).
Proof.
  intros Hc Hk w; unfold bind.
  specialize (Hc w); destruct (c w) as [[a|m] w']; simpl in *; [rewrite <- Hc; apply Hk | lia].
Qed.

Lemma grows_bind_last {A B} n (c : M A) (k : A -> M B) :
  Grows f n c -> (forall a, Keeps f (k a)) -> Grows f n (bind c k).
Proof.
  intros Hc Hk w; unfold bind.
  specialize (Hc w); destruct (c w) as [[a|m] w']; simpl in *; [rewrite Hk|]; exact Hc.
Qed.

Lemma grows_try {A} n (c : M A) (h : string -> M A) :
  Grows f n c -> (forall m, Keeps f (h m)) -> Grows f n (try_ c h).
Proof.
  intros Hc Hh w; unfold try_.
  specialize (Hc w); destruct (c w) as [[a|m] w']; simpl in *; [|rewrite Hh]; exact Hc.
Qed.

Lemma grows_finally {A} n (c : M A) (g : M unit) :
  Grows f n c -> Keeps f g -> Grows f n (finally_ c g).
Proof.
  intros Hc Hg w; unfold finally_.
  specialize (Hc w); destruct (c w) as [r w'].
  specialize (Hg w'); destruct (g w') as [[u|m] w'']; simpl in *; rewrite Hg; exact Hc.
Qed.

Lemma grows_dbOp e {A} n op (k : M A) : Grows f n k -> Grows f n (dbOp e op k).
Proof. intros Hk w; unfold dbOp; destruct (env_dbFail e op); [simpl; lia | apply Hk]. Qed.

End GrowsLemmas.

Lemma keeps_posts_length_of_db {A} (c : M A) :
  Keeps db c -> Keeps (fun w => length (posts (db w))) c.
Proof. intros K w; simpl; rewrite K; reflexivity. Qed.

Lemma keeps_processed_length_of_db {A} (c : M A) :
  Keeps db c -> Keeps (fun w => length (processed (db w))) c.
Proof. intros K w; simpl; rewrite K; reflexivity. Qed.

Lemma updatePostStatus_keeps_lengths e id st err :
  Keeps (fun w => (length (posts (db w)), length (processed (db w)))) (updatePostStatus e id st err).
Proof.
  intro w; unfold updatePostStatus, dbOp, modify.
  destruct (env_dbFail e DbUpdate); [reflexivity|]; simpl; rewrite length_map; reflexivity.
Qed.

Lemma updatePostStatus_keeps_posts_length e id st err :
  Keeps (fun w => length (posts (db w))) (updatePostStatus e id st err).
Proof. intro w; pose proof (updatePostStatus_keeps_lengths e id st err w) as H; injection H; auto. Qed.

Lemma updatePostStatus_keeps_processed_length e id st err :
  Keeps (fun w => length (processed (db w))) (updatePostStatus e id st err).
Proof. intro w; pose proof (updatePostStatus_keeps_lengths e id st err w) as H; injection H; auto. Qed.

Lemma markNewsAsProcessed_keeps_posts_length e u t :
  Keeps (fun w => length (posts (db w))) (markNewsAsProcessed e u t).
Proof. intro w; simpl; rewrite (markNewsAsProcessed_keeps_posts e u t w); reflexivity. Qed.

Lemma insertPost_keeps_processed_length e t c u p h :
  Keeps (fun w => length (processed (db w))) (insertPost e t c u p h).
Proof.
  intro w; unfold insertPost, dbOp.
  destruct (env_dbFail e DbInsert); [reflexivity|]; destruct (existsb _ _); reflexivity.
Qed.

Lemma insertPost_grows e t c u p h : Grows (fun w => length (posts (db w))) 1 (insertPost e t c u p h).
Proof.
  intro w; unfold insertPost, dbOp.
  destruct (env_dbFail e DbInsert); [simpl; lia|]; destruct (existsb _ _); simpl; [lia|].
  rewrite length_app; simpl; lia.
Qed.

Lemma markNewsAsProcessed_grows e u t :
  Grows (fun w => length (processed (db w))) 1 (markNewsAsProcessed e u t).
Proof.
  intro w; unfold markNewsAsProcessed, dbOp, modify.
  destruct (env_dbFail e DbMark); [simpl; lia|]; simpl.
  unfold insert_or_ignore; destruct (existsb _ _); [lia|]; rewrite length_app; simpl; lia.
Qed.

Create HintDb grows.
#[export] Hint Resolve keeps_posts_length_of_db keeps_processed_length_of_db
  updatePostStatus_keeps_posts_length
  updatePostStatus_keeps_processed_length markNewsAsProcessed_keeps_posts_length
  insertPost_keeps_processed_length : keeps.
#[export] Hint Resolve insertPost_grows markNewsAsProcessed_grows : grows.

Ltac grows_tac :=
  repeat match goal with
  | |- Grows _ _ _ => solve [apply grows_keeps; keeps_tac]
  | |- Grows _ _ _ => solve [eauto with grows]
  | |- Grows _ _ (bind _ _) =>
      first [apply grows_bind_keeps; [solve [keeps_tac] | intro]
            | apply grows_bind_last; [ | intro; solve [keeps_tac]]]
  | |- Grows _ _ (try_ _ _) => apply grows_try; [ | intro; solve [keeps_tac]]
  | |- Grows _ _ (finally_ _ _) => apply grows_finally; [ | solve [keeps_tac]]
  | |- Grows _ _ (dbOp _ _ _) => apply grows_dbOp
  | |- Grows _ _ (if ?b then _ else _) => destruct b
  | |- Grows _ _ (match ?x with _ => _ end) => destruct x
  end.

Lemma createAndPublishPost_grows e item :
  Grows (fun w => length (posts (db w))) 1 (createAndPublishPost e item) /\
  Grows (fun w => length (processed (db w))) 1 (createAndPublishPost e item).
Proof. unfold createAndPublishPost, phase1, phase2; split; grows_tac. Qed.

(** X15.  A cycle adds at most one row to [posts] and at most one row
    to [processed_news]. *)
Theorem cycle_adds_at_most_one_row e w :
  (length (posts (db (snd (runAutomationCycle e w)))) <= length (posts (db w)) + 1)%nat /\
  (length (processed (db (snd (runAutomationCycle e w)))) <= length (processed (db w)) + 1)%nat.
Proof.
  pose proof (fun item => proj1 (createAndPublishPost_grows e item)) as G1.
  pose proof (fun item => proj2 (createAndPublishPost_grows e item)) as G2.
  unfold runAutomationCycle; destruct (isRunning (stats w)); [simpl; lia|].
  split.
  - assert (H : Grows (fun w => length (posts (db w))) 1 (cycle_rest e)).
    { unfold cycle_rest, cycle_body; grows_tac. }
    exact (H (cycle_start w)).
  - assert (H : Grows (fun w => length (processed (db w))) 1 (cycle_rest e)).
    { unfold cycle_rest, cycle_body; grows_tac. }
    exact (H (cycle_start w)).
Qed.
